(** * Qutrit kernels: Gell-Mann feature map, encoding and kernel evaluation

  A shallow embedding of the numerical core of the qutrit-kernel notebooks
  (Seeds, Glass, Iris and Wine variants): the qutrit basis vectors, the
  eight Gell-Mann generators, the qutrit Hadamard operator, the entangling
  operator LZZ2, [encoding], [kernel] and [kernel_matrix].

  Numbers.  NumPy's float64 and complex128 are idealised as the real
  numbers [R] and as pairs of reals [C]; all statements are therefore the
  exact ones that the notebooks check "up to floating-point tolerance".

  Arrays.  A 2-D ndarray is a list of rows.  [np.kron], [np.dot], [.T],
  [.conj()], scalar multiplication, [+], [-], [**2] and [np.real] are
  written out on that representation.  Feature vectors are lists of reals;
  indexing past the end raises IndexError, modelled by [None].

  scipy.linalg.expm.  The matrix exponential is the entrywise limit of the
  partial sums of the power series sum_k A^k / k!; the series is shown to
  converge for every matrix ([expm_entry_limit]).

  Part I holds the embedding, Part II the algebra and analysis behind it
  (in particular: the exponential of a skew-Hermitian matrix is unitary),
  Part III the properties stated by the specification. *)

From Stdlib Require Import Reals Lra Lia List Arith PeanoNat ClassicalEpsilon.
Import ListNotations.

Local Open Scope R_scope.

(** * Part I: the embedding *)

(** ** Complex scalars *)

Record C : Type := mkC { Re : R; Im : R }.

Declare Scope C_scope.
Delimit Scope C_scope with C.
Bind Scope C_scope with C.

Definition RtoC (x : R) : C := mkC x 0.
Definition C0 : C := mkC 0 0.
Definition C1 : C := mkC 1 0.
(** Python's [1j]. *)
Definition Ci : C := mkC 0 1.

Definition Cplus (z w : C) : C := mkC (Re z + Re w) (Im z + Im w).
Definition Copp (z : C) : C := mkC (- Re z) (- Im z).
Definition Cminus (z w : C) : C := Cplus z (Copp w).
Definition Cmult (z w : C) : C :=
  mkC (Re z * Re w - Im z * Im w) (Re z * Im w + Im z * Re w).
Definition Cconj (z : C) : C := mkC (Re z) (- Im z).
Definition Cinv (z : C) : C :=
  mkC (Re z / (Re z * Re z + Im z * Im z))
      (- Im z / (Re z * Re z + Im z * Im z)).
Definition Cdiv (z w : C) : C := Cmult z (Cinv w).
(** Squared modulus. *)
Definition Cnorm2 (z : C) : R := Re z * Re z + Im z * Im z.
(** [np.exp] on a complex scalar. *)
Definition Cexp (z : C) : C :=
  mkC (exp (Re z) * cos (Im z)) (exp (Re z) * sin (Im z)).

Infix "+" := Cplus : C_scope.
Infix "-" := Cminus : C_scope.
Infix "*" := Cmult : C_scope.
Infix "/" := Cdiv : C_scope.
Notation "- z" := (Copp z) : C_scope.

Coercion RtoC : R >-> C.

(** ** Finite sums of complex and real numbers *)

(** [Csum f n] is the sum of [f k] for [k < n]. *)
Fixpoint Csum (f : nat -> C) (n : nat) : C :=
  match n with
  | O => C0
  | S n' => (Csum f n' + f n')%C
  end.

Fixpoint Rsum (f : nat -> R) (n : nat) : R :=
  match n with
  | O => 0
  | S n' => Rsum f n' + f n'
  end.

(** The 1-norm of a complex number; it is sub-multiplicative, which is all
    the convergence arguments need. *)
Definition Cn1 (z : C) : R := Rabs (Re z) + Rabs (Im z).

(** ** Double sums

    The sum of a two-index family over the square [0..N] x [0..N], over the
    triangle [j + k <= N], over the remaining corner, and over the triangle
    read along its anti-diagonals. *)

Definition square_sum (f : nat -> nat -> R) (N : nat) : R :=
  sum_f_R0 (fun j => sum_f_R0 (f j) N) N.

Definition triangle_sum (f : nat -> nat -> R) (N : nat) : R :=
  sum_f_R0 (fun j => sum_f_R0 (f j) (N - j)) N.

Definition corner_sum (f : nat -> nat -> R) (N : nat) : R :=
  sum_f_R0
    (fun j => sum_f_R0 (fun k => if (k <=? N - j)%nat then 0 else f j k) N)
    N.

Definition diagonal_sum (f : nat -> nat -> R) (N : nat) : R :=
  sum_f_R0 (fun m => sum_f_R0 (fun j => f j (m - j)%nat) m) N.

(** ** Limits of real and complex sequences *)

(** The limit of a sequence, as a total function: it is the limit whenever
    the sequence converges. *)
Definition Rlim (u : nat -> R) : R :=
  epsilon (inhabits 0) (fun l => Un_cv u l).

Definition Clim (u : nat -> C) : C :=
  mkC (Rlim (fun N => Re (u N))) (Rlim (fun N => Im (u N))).

(** Componentwise convergence of a complex sequence. *)
Definition Ccv (u : nat -> C) (l : C) : Prop :=
  Un_cv (fun N => Re (u N)) (Re l) /\ Un_cv (fun N => Im (u N)) (Im l).

(** ** Square matrices as index functions

  The algebra behind [expm] is carried out on matrices seen as functions
  from indices to entries; only the entries with both indices below the
  dimension [n] matter. *)

Definition Mat : Type := nat -> nat -> C.

Definition Mid : Mat := fun i j => if (i =? j)%nat then C1 else C0.

Definition Mmul (n : nat) (A B : Mat) : Mat :=
  fun i j => Csum (fun k => (A i k * B k j)%C) n.

Fixpoint Mpow (n : nat) (A : Mat) (k : nat) : Mat :=
  match k with
  | O => Mid
  | S k' => Mmul n A (Mpow n A k')
  end.

(** The [k]-th term and the [N]-th partial sum of the exponential series. *)
Definition expm_term (n : nat) (A : Mat) (k : nat) : Mat :=
  fun i j => (RtoC (/ INR (fact k)) * Mpow n A k i j)%C.

Definition expm_partial (n : nat) (A : Mat) (N : nat) : Mat :=
  fun i j => Csum (fun k => expm_term n A k i j) (S N).

Definition expm_fun (n : nat) (A : Mat) : Mat :=
  fun i j => Clim (fun N => expm_partial n A N i j).

(** Sum of the 1-norms of all entries. *)
Definition Mnorm (n : nat) (A : Mat) : R :=
  Rsum (fun i => Rsum (fun j => Cn1 (A i j)) n) n.

(** ** Unitary and skew-Hermitian matrices *)

(** [U] has orthonormal columns: the entries of [U^dagger U] are those of
    the identity. *)
Definition unitary_fun (n : nat) (U : Mat) : Prop :=
  forall p q, (p < n)%nat -> (q < n)%nat ->
    Csum (fun r => (Cconj (U r p) * U r q)%C) n = Mid p q.

Definition skew_hermitian_fun (n : nat) (A : Mat) : Prop :=
  forall i j, (i < n)%nat -> (j < n)%nat -> Cconj (A i j) = (- A j i)%C.

(** ** Powers of a complex number and imaginary diagonal matrices *)

Fixpoint Cpow (z : C) (k : nat) : C :=
  match k with
  | O => C1
  | S k' => (z * Cpow z k')%C
  end.

(** The scalar exponential series at an imaginary argument. *)
Definition cis_partial (t : R) (N : nat) : C :=
  Csum (fun k => (RtoC (/ INR (fact k)) * Cpow (mkC 0 t) k)%C) (S N).

(** [A] is diagonal with diagonal entries [i * theta k]. *)
Definition imag_diagonal_fun (n : nat) (A : Mat) (theta : nat -> R) : Prop :=
  forall i j, (i < n)%nat -> (j < n)%nat ->
    A i j = if (i =? j)%nat then mkC 0 (theta i) else C0.

(** ** NumPy arrays and the operations the notebooks use *)

(** A 2-D array is the list of its rows. *)
Definition array : Type := list (list C).

Definition rows (A : array) : nat := length A.

Definition cols (A : array) : nat :=
  match A with
  | [] => O
  | r :: _ => length r
  end.

(** [A[i][j]], with 0 outside the array. *)
Definition get (A : array) (i j : nat) : C := nth j (nth i A []) C0.

Definition mat_build (r c : nat) (f : nat -> nat -> C) : array :=
  map (fun i => map (fun j => f i j) (seq 0 c)) (seq 0 r).

Fixpoint zip_with {X Y Z : Type} (f : X -> Y -> Z) (l1 : list X) (l2 : list Y)
  : list Z :=
  match l1, l2 with
  | x :: l1', y :: l2' => f x y :: zip_with f l1' l2'
  | _, _ => []
  end.

(** [A + B] and [A - B] on arrays of the same shape. *)
Definition arr_add (A B : array) : array := zip_with (zip_with Cplus) A B.
Definition arr_sub (A B : array) : array := zip_with (zip_with Cminus) A B.

(** [z * A] for a scalar [z]. *)
Definition scal (z : C) (A : array) : array := map (map (Cmult z)) A.

(** [A.T] *)
Definition transpose (A : array) : array :=
  mat_build (cols A) (rows A) (fun i j => get A j i).

(** [A.conj()] *)
Definition arr_conj (A : array) : array := map (map Cconj) A.

(** [np.kron(A, B)]: the block matrix whose [(i, j)] block is [A[i][j] * B]. *)
Definition kron (A B : array) : array :=
  flat_map
    (fun ra => map (fun rb => flat_map (fun a => map (Cmult a) rb) ra) B) A.

(** [np.dot(A, B)] *)
Definition dot (A B : array) : array :=
  mat_build (rows A) (cols B)
    (fun i j => Csum (fun k => (get A i k * get B k j)%C) (cols A)).

(** [A ** 2], elementwise. *)
Definition square (A : array) : array := map (map (fun z => (z * z)%C)) A.

(** [np.real(A)] *)
Definition real (A : array) : list (list R) := map (map Re) A.

(** [A[0][0]]; [None] stands for the IndexError of an empty array. *)
Definition item00 (A : list (list R)) : option R :=
  match A with
  | (x :: _) :: _ => Some x
  | _ => None
  end.

(** [scipy.linalg.expm(A)] for a square array [A]: the matrix exponential,
    entry by entry the limit of the partial sums of the power series. *)
Definition expm (A : array) : array :=
  mat_build (rows A) (rows A) (expm_fun (rows A) (get A)).

(** The value of a Python expression that is a scalar or an array, with
    NumPy's broadcasting [+]. *)
Inductive npval : Type :=
| Scalar (z : C)
| Array (a : array).

Definition np_add (x y : npval) : npval :=
  match x, y with
  | Scalar a, Scalar b => Scalar (a + b)
  | Scalar a, Array m => Array (map (map (Cplus a)) m)
  | Array m, Scalar b => Array (map (map (fun z => (z + b)%C)) m)
  | Array m1, Array m2 => Array (arr_add m1 m2)
  end.

(** Python slices [x[lo:hi]] and [x[lo:]] of a 1-D array. *)
Definition slice {X : Type} (lo hi : nat) (x : list X) : list X :=
  firstn (hi - lo) (skipn lo x).
Definition slice_from {X : Type} (lo : nat) (x : list X) : list X :=
  skipn lo x.

(** Evaluation with exceptions: [None] is a raised IndexError. *)
Definition bind {X Y : Type} (m : option X) (k : X -> option Y) : option Y :=
  match m with
  | Some x => k x
  | None => None
  end.

Notation "x <- m ;; k" := (bind m (fun x => k))
  (at level 61, m at next level, right associativity).

Fixpoint mapM {X Y : Type} (f : X -> option Y) (l : list X) : option (list Y) :=
  match l with
  | [] => Some []
  | x :: l' => y <- f x ;; ys <- mapM f l' ;; Some (y :: ys)
  end.

(** ** Qutrit basis, Gell-Mann generators, Hadamard and entangling operators *)

(** The qutrit states as column vectors. *)
Definition q0 : array := [[RtoC 1]; [RtoC 0]; [RtoC 0]].
Definition q1 : array := [[RtoC 0]; [RtoC 1]; [RtoC 0]].
Definition q2 : array := [[RtoC 0]; [RtoC 0]; [RtoC 1]].

(** The Gell-Mann matrices. *)
Definition gm1 : array :=
  arr_add (kron q0 (transpose q1)) (kron q1 (transpose q0)).
Definition gm2 : array :=
  scal (- Ci)%C (arr_sub (kron q0 (transpose q1)) (kron q1 (transpose q0))).
Definition gm3 : array :=
  arr_sub (kron q0 (transpose q0)) (kron q1 (transpose q1)).
Definition gm4 : array :=
  arr_add (kron q0 (transpose q2)) (kron q2 (transpose q0)).
Definition gm5 : array :=
  scal (- Ci)%C (arr_sub (kron q0 (transpose q2)) (kron q2 (transpose q0))).
Definition gm6 : array :=
  arr_add (kron q1 (transpose q2)) (kron q2 (transpose q1)).
Definition gm7 : array :=
  scal (- Ci)%C (arr_sub (kron q1 (transpose q2)) (kron q2 (transpose q1))).
Definition gm8 : array :=
  scal (RtoC (1 / sqrt 3))
    (arr_sub (arr_add (kron q0 (transpose q0)) (kron q1 (transpose q1)))
             (scal (RtoC 2) (kron q2 (transpose q2)))).

Definition generators : list array :=
  [gm1; gm2; gm3; gm4; gm5; gm6; gm7; gm8].

(** [np.exp(2j*np.pi/3)] and [np.exp(-2j*np.pi/3)]. *)
Definition omega : C := Cexp (mkC 0 2 * RtoC PI / RtoC 3)%C.
Definition omega' : C := Cexp (- mkC 0 2 * RtoC PI / RtoC 3)%C.

(** The Hadamard operator for qutrits. *)
Definition H : array :=
  scal (RtoC (1 / sqrt 3))
    [[RtoC 1; RtoC 1; RtoC 1];
     [RtoC 1; omega; omega'];
     [RtoC 1; omega'; omega]].

(** The entangling operator. *)
Definition LZ2 : array := arr_add gm3 (scal (RtoC (sqrt 3)) gm8).
Definition LZZ2 : array := kron LZ2 LZ2.

(** ** Diagonal, zero and identity arrays *)

Definition diag_array (d : list C) : array :=
  mat_build (length d) (length d)
    (fun i j => if (i =? j)%nat then nth i d C0 else C0).

Definition zeros (n : nat) : array := mat_build n n (fun _ _ => C0).
Definition eye (n : nat) : array := mat_build n n Mid.

(** ** Encoding four features on a qutrit

  The notebooks share the loop
  [sum = 0; for i in range(4): sum = sum + (1j * vector[i] * generators[i + offset])]
  and differ in the generator offset (0, or 4 in the Wine notebook) and in
  the vector the exponential is applied to ([q0] or [np.dot(H, q0)]).
  [vector[i]] raises IndexError when [i] is out of range. *)

Definition encoding_term (offset : nat) (vector : list R) (i : nat)
  : option array :=
  v <- nth_error vector i ;;
  g <- nth_error generators (i + offset) ;;
  Some (scal (Ci * RtoC v)%C g).

Fixpoint encoding_loop (offset : nat) (vector : list R) (range : list nat)
    (sum : npval) : option npval :=
  match range with
  | [] => Some sum
  | i :: range' =>
      t <- encoding_term offset vector i ;;
      encoding_loop offset vector range' (np_add sum (Array t))
  end.

(** The array [sum] at the end of the loop. *)
Definition encoding_sum (offset : nat) (vector : list R) : option array :=
  s <- encoding_loop offset vector (seq 0 4) (Scalar (RtoC 0)) ;;
  match s with
  | Array a => Some a
  | Scalar _ => None
  end.

(** [[kernel(a, b) for b in B] for a in A], for any [kernel]. *)
Definition kernel_matrix_of (kernel : list R -> list R -> option R)
    (A B : list (list R)) : option (list (list R)) :=
  mapM (fun a => mapM (fun b => kernel a b) B) A.

(** The Seeds notebook: two entangled qutrits, base vector [q0]. *)
Module Seeds.

Definition encoding (vector : list R) : option array :=
  sum <- encoding_sum 0 vector ;;
  Some (dot (expm sum) q0).

Definition kernel (x1 x2 : list R) : option R :=
  qutrit_1 <- encoding (slice 0 4 x1) ;;
  qutrit_2 <- encoding (slice_from 4 x1) ;;
  let entangle_gate := scal Ci LZZ2 in
  let qutrit_1x2 := kron qutrit_1 qutrit_2 in
  let kron1 := dot (expm entangle_gate) qutrit_1x2 in
  qutrit_1' <- encoding (slice 0 4 x2) ;;
  qutrit_2' <- encoding (slice_from 4 x2) ;;
  let qutrit_1x2' := kron qutrit_1' qutrit_2' in
  let kron2 := dot (expm entangle_gate) qutrit_1x2' in
  item00 (real (square (dot (transpose (arr_conj kron1)) kron2))).

Definition kernel_matrix := kernel_matrix_of kernel.

End Seeds.

(** The Glass notebook: as Seeds, with base vector [np.dot(H, q0)]. *)
Module Glass.

Definition encoding (vector : list R) : option array :=
  sum <- encoding_sum 0 vector ;;
  Some (dot (expm sum) (dot H q0)).

Definition kernel (x1 x2 : list R) : option R :=
  qutrit_1 <- encoding (slice 0 4 x1) ;;
  qutrit_2 <- encoding (slice_from 4 x1) ;;
  let entangle_gate := scal Ci LZZ2 in
  let qutrit_1x2 := kron qutrit_1 qutrit_2 in
  let kron1 := dot (expm entangle_gate) qutrit_1x2 in
  qutrit_1' <- encoding (slice 0 4 x2) ;;
  qutrit_2' <- encoding (slice_from 4 x2) ;;
  let qutrit_1x2' := kron qutrit_1' qutrit_2' in
  let kron2 := dot (expm entangle_gate) qutrit_1x2' in
  item00 (real (square (dot (transpose (arr_conj kron1)) kron2))).

Definition kernel_matrix := kernel_matrix_of kernel.

End Glass.

(** The Iris notebook: the whole input is encoded into both qutrits. *)
Module Iris.

Definition encoding (vector : list R) : option array :=
  sum <- encoding_sum 0 vector ;;
  Some (dot (expm sum) (dot H q0)).

Definition kernel (x1 x2 : list R) : option R :=
  qutrit_1 <- encoding x1 ;;
  qutrit_2 <- encoding x1 ;;
  let entangle_gate := scal Ci LZZ2 in
  let qutrit_1x2 := kron qutrit_1 qutrit_2 in
  let kron1 := dot (expm entangle_gate) qutrit_1x2 in
  qutrit_1' <- encoding x2 ;;
  qutrit_2' <- encoding x2 ;;
  let qutrit_1x2' := kron qutrit_1' qutrit_2' in
  let kron2 := dot (expm entangle_gate) qutrit_1x2' in
  item00 (real (square (dot (transpose (arr_conj kron1)) kron2))).

Definition kernel_matrix := kernel_matrix_of kernel.

End Iris.

(** The Wine notebook: three qutrits, generators gm5..gm8, no entangling
    gate.  The second and third factors of [kron2] are encoded from [x1],
    as in the notebook. *)
Module Wine.

Definition encoding (vector : list R) : option array :=
  sum <- encoding_sum 4 vector ;;
  Some (dot (expm sum) q0).

Definition kernel (x1 x2 : list R) : option R :=
  enc1 <- encoding (slice 0 4 x1) ;;
  enc2 <- encoding (slice 4 8 x1) ;;
  enc3 <- encoding (slice 8 12 x1) ;;
  let kron1 := kron (kron enc1 enc2) enc3 in
  enc1' <- encoding (slice 0 4 x2) ;;
  enc2' <- encoding (slice 4 8 x1) ;;
  enc3' <- encoding (slice 8 12 x1) ;;
  let kron2 := kron (kron enc1' enc2') enc3' in
  item00 (real (square (dot (transpose (arr_conj kron1)) kron2))).

Definition kernel_matrix := kernel_matrix_of kernel.

End Wine.

(** ** Column vectors *)

(** The [k]-th entry of a column vector. *)
Definition col (v : array) (k : nat) : C := get v k 0.

(** The inner product <u, v> of two column vectors, conjugate-linear in [u]. *)
Definition inner (u v : array) : C :=
  Csum (fun k => (Cconj (col u k) * col v k)%C) (rows u).

(** The squared Euclidean norm and the norm of a column vector. *)
Definition norm2 (v : array) : R := Rsum (fun k => Cnorm2 (col v k)) (rows v).
Definition norm (v : array) : R := sqrt (norm2 v).

(** [A] has [r] rows, each of length [c]. *)
Definition shape (r c : nat) (A : array) : Prop :=
  length A = r /\ Forall (fun row => length row = c) A.

(** ** The generator sums in closed form

    [1j * (a*gm1 + b*gm2 + c*gm3 + d*gm4)] and
    [1j * (a*gm5 + b*gm6 + c*gm7 + d*gm8)]. *)

Definition gen_sum_low (a b c d : R) : array :=
  [[mkC 0 c; mkC b a; mkC 0 d];
   [mkC (- b) a; mkC 0 (- c); C0];
   [mkC 0 d; C0; C0]].

Definition gen_sum_high (a b c d : R) : array :=
  [[mkC 0 (d / sqrt 3); C0; mkC a 0];
   [C0; mkC 0 (d / sqrt 3); mkC c b];
   [mkC (- a) 0; mkC (- c) b; mkC 0 (- 2 * d / sqrt 3)]].

(** A normalised qutrit state: a 3 x 1 column of squared norm 1. *)
Definition unit_qutrit (psi : array) : Prop :=
  exists z0 z1 z2,
    psi = [[z0]; [z1]; [z2]] /\ Cnorm2 z0 + Cnorm2 z1 + Cnorm2 z2 = 1.

(** The diagonal of LZZ2, and the entangling unitary exp(i LZZ2) in closed
    form. *)
Definition LZZ2_diag : list R := [4; 0; -4; 0; 0; 0; -4; 0; 4].

Definition entangler : array :=
  diag_array (map (fun t => Cexp (mkC 0 t)) LZZ2_diag).

(** ** Properties of operators named by the specification *)

(** [A] equals its conjugate transpose. *)
Definition hermitian (A : array) : Prop := transpose (arr_conj A) = A.

(** The trace of a square array. *)
Definition trace (A : array) : C := Csum (fun k => get A k k) (rows A).

(** All entries off the main diagonal are zero. *)
Definition is_diagonal (A : array) : Prop :=
  forall i j, i <> j -> get A i j = C0.

(** The all-zero feature vector of a given length. *)
Definition zero_vector (n : nat) : list R := repeat 0 n.

(** The three-qutrit kernel as the specification words it: both joint states
    are built by partitioning the vector into chunks of 4, encoding each
    chunk and combining the states by Kronecker product; [psi1] is built from
    [x1] only and [psi2] from [x2] only; the value is the real part of the
    square of the inner product. *)
Definition Wine_kernel_as_specified (x1 x2 : list R) : option R :=
  enc1 <- Wine.encoding (slice 0 4 x1) ;;
  enc2 <- Wine.encoding (slice 4 8 x1) ;;
  enc3 <- Wine.encoding (slice 8 12 x1) ;;
  let psi1 := kron (kron enc1 enc2) enc3 in
  enc1' <- Wine.encoding (slice 0 4 x2) ;;
  enc2' <- Wine.encoding (slice 4 8 x2) ;;
  enc3' <- Wine.encoding (slice 8 12 x2) ;;
  let psi2 := kron (kron enc1' enc2') enc3' in
  Some (Re (inner psi1 psi2 * inner psi1 psi2)).

(** ** Entries of a kernel matrix *)

(** [K[i][j]] for a matrix of reals given as a list of rows; [None] outside
    the matrix. *)
Definition entry (K : list (list R)) (i j : nat) : option R :=
  row <- nth_error K i ;; nth_error row j.

(** * Part II: properties *)

(** ** Complex arithmetic *)

Lemma C_eq (z w : C) : Re z = Re w -> Im z = Im w -> z = w.
Proof. destruct z, w; simpl; intros -> ->; reflexivity. Qed.

(** Closes an equation between complex scalars whose components are equal as
    ring expressions over [R]. *)
Ltac lca :=
  apply C_eq; cbn [Re Im Cplus Cmult Copp Cminus Cconj RtoC C0 C1 Ci];
  try ring; try lra.

Lemma Cplus_comm (z w : C) : (z + w)%C = (w + z)%C.
Proof. lca. Qed.

Lemma Cplus_assoc (z w v : C) : (z + (w + v))%C = (z + w + v)%C.
Proof. lca. Qed.

Lemma Cplus_0_l (z : C) : (C0 + z)%C = z.
Proof. destruct z; lca. Qed.

Lemma Cplus_0_r (z : C) : (z + C0)%C = z.
Proof. destruct z; lca. Qed.

Lemma Cmult_comm (z w : C) : (z * w)%C = (w * z)%C.
Proof. lca. Qed.

Lemma Cmult_assoc (z w v : C) : (z * (w * v))%C = (z * w * v)%C.
Proof. lca. Qed.

Lemma Cmult_0_l (z : C) : (C0 * z)%C = C0.
Proof. lca. Qed.

Lemma Cmult_0_r (z : C) : (z * C0)%C = C0.
Proof. lca. Qed.

Lemma Cmult_1_l (z : C) : (C1 * z)%C = z.
Proof. destruct z; lca. Qed.

Lemma Cmult_1_r (z : C) : (z * C1)%C = z.
Proof. destruct z; lca. Qed.

Lemma Cmult_plus_distr_l (z w v : C) : (z * (w + v))%C = (z * w + z * v)%C.
Proof. lca. Qed.

Lemma Cmult_plus_distr_r (z w v : C) : ((z + w) * v)%C = (z * v + w * v)%C.
Proof. lca. Qed.

Lemma Cconj_plus (z w : C) : Cconj (z + w) = (Cconj z + Cconj w)%C.
Proof. lca. Qed.

Lemma Cconj_mult (z w : C) : Cconj (z * w) = (Cconj z * Cconj w)%C.
Proof. lca. Qed.

Lemma Cconj_involutive (z : C) : Cconj (Cconj z) = z.
Proof. destruct z; lca. Qed.

Lemma Cnorm2_conj (z : C) : (Cconj z * z)%C = RtoC (Cnorm2 z).
Proof. unfold Cnorm2; lca. Qed.

Lemma Cnorm2_nonneg (z : C) : 0 <= Cnorm2 z.
Proof. unfold Cnorm2; nra. Qed.

Lemma Cnorm2_Cexp_imag (t : R) : Cnorm2 (Cexp (mkC 0 t)) = 1.
Proof.
  unfold Cnorm2, Cexp; simpl. rewrite exp_0.
  generalize (sin2_cos2 t); unfold Rsqr; lra.
Qed.

(** The real part of a square does not see the sign of the imaginary part:
    this is what makes [np.real(c**2)] insensitive to the order of the two
    arguments of an inner product. *)
Lemma Re_sqr_conj (z : C) : Re (Cconj z * Cconj z) = Re (z * z).
Proof. simpl; ring. Qed.

(** ** Finite sums *)

Lemma Csum_ext (f g : nat -> C) (n : nat) :
  (forall k, (k < n)%nat -> f k = g k) -> Csum f n = Csum g n.
Proof.
  induction n as [|n IH]; intros Hfg; simpl; [reflexivity|].
  rewrite IH by (intros; apply Hfg; lia).
  rewrite Hfg by lia. reflexivity.
Qed.

Lemma Csum_zero (f : nat -> C) (n : nat) :
  (forall k, (k < n)%nat -> f k = C0) -> Csum f n = C0.
Proof.
  induction n as [|n IH]; intros Hf; simpl; [reflexivity|].
  rewrite IH by (intros; apply Hf; lia).
  rewrite Hf by lia. apply Cplus_0_l.
Qed.

Lemma Csum_plus (f g : nat -> C) (n : nat) :
  Csum (fun k => (f k + g k)%C) n = (Csum f n + Csum g n)%C.
Proof.
  induction n as [|n IH]; simpl; [lca|]. rewrite IH. lca.
Qed.

Lemma Csum_mult_l (c : C) (f : nat -> C) (n : nat) :
  Csum (fun k => (c * f k)%C) n = (c * Csum f n)%C.
Proof.
  induction n as [|n IH]; simpl; [lca|]. rewrite IH. lca.
Qed.

Lemma Csum_mult_r (c : C) (f : nat -> C) (n : nat) :
  Csum (fun k => (f k * c)%C) n = (Csum f n * c)%C.
Proof.
  induction n as [|n IH]; simpl; [lca|]. rewrite IH. lca.
Qed.

Lemma Csum_conj (f : nat -> C) (n : nat) :
  Cconj (Csum f n) = Csum (fun k => Cconj (f k)) n.
Proof.
  induction n as [|n IH]; simpl; [lca|].
  rewrite Cconj_plus, IH. reflexivity.
Qed.

Lemma Csum_swap (f : nat -> nat -> C) (n m : nat) :
  Csum (fun i => Csum (fun j => f i j) m) n =
  Csum (fun j => Csum (fun i => f i j) n) m.
Proof.
  induction n as [|n IH]; simpl.
  - symmetry. apply Csum_zero. reflexivity.
  - rewrite IH, <- Csum_plus. reflexivity.
Qed.

(** A sum with a single non-zero summand. *)
Lemma Csum_single (f : nat -> C) (n i : nat) :
  (i < n)%nat ->
  (forall k, (k < n)%nat -> k <> i -> f k = C0) ->
  Csum f n = f i.
Proof.
  induction n as [|n IH]; intros Hi Hz; [lia|]. simpl.
  destruct (Nat.eq_dec i n) as [->|Hne].
  - rewrite Csum_zero by (intros; apply Hz; lia). apply Cplus_0_l.
  - rewrite IH by (try lia; intros; apply Hz; lia).
    rewrite (Hz n) by lia. apply Cplus_0_r.
Qed.

Lemma Re_Csum (f : nat -> C) (n : nat) :
  Re (Csum f n) = Rsum (fun k => Re (f k)) n.
Proof. induction n as [|n IH]; simpl; [|rewrite IH]; reflexivity. Qed.

Lemma Im_Csum (f : nat -> C) (n : nat) :
  Im (Csum f n) = Rsum (fun k => Im (f k)) n.
Proof. induction n as [|n IH]; simpl; [|rewrite IH]; reflexivity. Qed.

(** [Rsum] up to [S N] is the Standard Library's [sum_f_R0] up to [N]. *)
Lemma Rsum_sum_f_R0 (f : nat -> R) (N : nat) :
  Rsum f (S N) = sum_f_R0 f N.
Proof.
  induction N as [|N IH]; [simpl; ring|].
  change (Rsum f (S (S N))) with (Rsum f (S N) + f (S N)).
  rewrite IH. reflexivity.
Qed.

Lemma Rsum_le (f g : nat -> R) (n : nat) :
  (forall k, (k < n)%nat -> f k <= g k) -> Rsum f n <= Rsum g n.
Proof.
  induction n as [|n IH]; intros H; simpl; [lra|].
  assert (Rsum f n <= Rsum g n) by (apply IH; intros; apply H; lia).
  assert (f n <= g n) by (apply H; lia). lra.
Qed.

Lemma Rsum_nonneg (f : nat -> R) (n : nat) :
  (forall k, (k < n)%nat -> 0 <= f k) -> 0 <= Rsum f n.
Proof.
  induction n as [|n IH]; intros H; simpl; [lra|].
  assert (0 <= Rsum f n) by (apply IH; intros; apply H; lia).
  assert (0 <= f n) by (apply H; lia). lra.
Qed.

Lemma Rsum_scal_r (f : nat -> R) (c : R) (n : nat) :
  Rsum (fun k => f k * c) n = Rsum f n * c.
Proof. induction n as [|n IH]; simpl; [|rewrite IH]; ring. Qed.

Lemma Rsum_term_le (f : nat -> R) (n i : nat) :
  (forall k, (k < n)%nat -> 0 <= f k) -> (i < n)%nat -> f i <= Rsum f n.
Proof.
  induction n as [|n IH]; intros Hf Hi; [lia|]. simpl.
  assert (0 <= Rsum f n) by (apply Rsum_nonneg; intros; apply Hf; lia).
  assert (0 <= f n) by (apply Hf; lia).
  destruct (Nat.eq_dec i n) as [->|Hne]; [lra|].
  assert (f i <= Rsum f n) by (apply IH; [intros; apply Hf|]; lia). lra.
Qed.

(** ** The 1-norm of a complex number *)

Lemma Cn1_nonneg (z : C) : 0 <= Cn1 z.
Proof. unfold Cn1. generalize (Rabs_pos (Re z)) (Rabs_pos (Im z)); lra. Qed.

Lemma Cn1_plus (z w : C) : Cn1 (z + w) <= Cn1 z + Cn1 w.
Proof.
  unfold Cn1; simpl.
  generalize (Rabs_triang (Re z) (Re w)) (Rabs_triang (Im z) (Im w)); lra.
Qed.

Lemma Cn1_mult (z w : C) : Cn1 (z * w) <= Cn1 z * Cn1 w.
Proof.
  unfold Cn1; simpl.
  assert (H1 : Rabs (Re z * Re w - Im z * Im w)
               <= Rabs (Re z) * Rabs (Re w) + Rabs (Im z) * Rabs (Im w)).
  { unfold Rminus. eapply Rle_trans; [apply Rabs_triang|].
    rewrite Rabs_Ropp, !Rabs_mult. lra. }
  assert (H2 : Rabs (Re z * Im w + Im z * Re w)
               <= Rabs (Re z) * Rabs (Im w) + Rabs (Im z) * Rabs (Re w)).
  { eapply Rle_trans; [apply Rabs_triang|]. rewrite !Rabs_mult. lra. }
  lra.
Qed.

Lemma Cn1_Csum (f : nat -> C) (n : nat) :
  Cn1 (Csum f n) <= Rsum (fun k => Cn1 (f k)) n.
Proof.
  induction n as [|n IH]; simpl.
  - unfold Cn1; simpl. rewrite Rabs_R0. lra.
  - eapply Rle_trans; [apply Cn1_plus|]. lra.
Qed.

Lemma Cn1_Re (z : C) : Rabs (Re z) <= Cn1 z.
Proof. unfold Cn1. generalize (Rabs_pos (Im z)); lra. Qed.

Lemma Cn1_Im (z : C) : Rabs (Im z) <= Cn1 z.
Proof. unfold Cn1. generalize (Rabs_pos (Re z)); lra. Qed.

(** ** Double sums and the Cauchy-product splitting

  A sum over the square [0..N] x [0..N] splits into the sum over the
  triangle [j + k <= N], which can be read along its anti-diagonals, and
  the sum over the remaining corner. *)

Section DoubleSums.

Variable f : nat -> nat -> R.

Lemma sum_split_at (h : nat -> R) (m d : nat) :
  sum_f_R0 h (m + d) =
  sum_f_R0 h m + sum_f_R0 (fun k => if (k <=? m)%nat then 0 else h k) (m + d).
Proof.
  induction d as [|d IH].
  - rewrite Nat.add_0_r.
    rewrite (sum_eq_R0 (fun k => if (k <=? m)%nat then 0 else h k)); [ring|].
    intros k Hk. apply Nat.leb_le in Hk. rewrite Hk. reflexivity.
  - replace (m + S d)%nat with (S (m + d)) by lia.
    rewrite !tech5, IH.
    replace (S (m + d) <=? m)%nat with false
      by (symmetry; apply Nat.leb_gt; lia).
    ring.
Qed.

Lemma square_split (N : nat) :
  square_sum f N = triangle_sum f N + corner_sum f N.
Proof.
  unfold square_sum, triangle_sum, corner_sum.
  rewrite <- plus_sum. apply sum_eq. intros j Hj.
  generalize (sum_split_at (f j) (N - j) j).
  replace (N - j + j)%nat with N by lia. tauto.
Qed.

Lemma triangle_diagonal (N : nat) : triangle_sum f N = diagonal_sum f N.
Proof.
  unfold triangle_sum, diagonal_sum.
  induction N as [|N IH]; [reflexivity|].
  rewrite (tech5 _ N), (tech5 _ N), (tech5 _ N), <- IH.
  rewrite Nat.sub_diag.
  rewrite (sum_eq (fun j => sum_f_R0 (f j) (S N - j))
                  (fun j => sum_f_R0 (f j) (N - j) + f j (S N - j))).
  - rewrite plus_sum.
    change (sum_f_R0 (f (S N)) 0) with (f (S N) O). ring.
  - intros j Hj. replace (S N - j)%nat with (S (N - j)) by lia.
    apply tech5.
Qed.

End DoubleSums.

Lemma alt_binomial_row (m : nat) :
  sum_f_R0 (fun j => (-1) ^ j * / INR (fact j) * / INR (fact (m - j))) m =
  / INR (fact m) * (-1 + 1) ^ m.
Proof.
  rewrite binomial, scal_sum. apply sum_eq. intros j Hj.
  unfold Binomial.C. rewrite pow1. field.
  repeat split; apply INR_fact_neq_0.
Qed.

Lemma exp_binomial_row (x : R) (m : nat) :
  sum_f_R0
    (fun j => / INR (fact j) * x ^ j * (/ INR (fact (m - j)) * x ^ (m - j))) m =
  / INR (fact m) * (x + x) ^ m.
Proof.
  rewrite binomial, scal_sum. apply sum_eq. intros j Hj.
  unfold Binomial.C. field.
  repeat split; apply INR_fact_neq_0.
Qed.

(** The square sums of the exponential terms are products of partial sums of
    the exponential series, and their corner tends to zero. *)
Lemma exp_corner_cv (x : R) :
  Un_cv
    (corner_sum (fun j k => / INR (fact j) * x ^ j * (/ INR (fact k) * x ^ k)))
    0.
Proof.
  set (g := fun j k => / INR (fact j) * x ^ j * (/ INR (fact k) * x ^ k)).
  assert (Hc : forall N, corner_sum g N = E1 x N * E1 x N - E1 (x + x) N).
  { intros N.
    assert (Hsq : square_sum g N = E1 x N * E1 x N).
    { unfold square_sum, E1, g. rewrite scal_sum. apply sum_eq. intros j _.
      rewrite scal_sum. apply sum_eq. intros k _. ring. }
    assert (Htr : triangle_sum g N = E1 (x + x) N).
    { rewrite triangle_diagonal. unfold diagonal_sum, E1. apply sum_eq.
      intros m _. apply exp_binomial_row. }
    generalize (square_split g N). lra. }
  assert (Hl : Un_cv (fun N => E1 x N * E1 x N - E1 (x + x) N) 0).
  { replace 0 with (exp x * exp x - exp (x + x)) by (rewrite exp_plus; ring).
    apply CV_minus; [apply CV_mult|]; apply E1_cvg. }
  intros eps Heps. destruct (Hl eps Heps) as [N0 HN0].
  exists N0. intros n Hn. rewrite Hc. apply HN0, Hn.
Qed.

(** The analytic core of unitarity: the alternating double series collapses
    to its first term. *)
Lemma alt_square_cv (a : nat -> R) (M : R) :
  (forall m, Rabs (a m) <= M ^ m) ->
  Un_cv
    (square_sum
       (fun j k => (-1) ^ j * / INR (fact j) * / INR (fact k) * a (j + k)%nat))
    (a O).
Proof.
  intros Ha.
  set (f := fun j k => (-1) ^ j * / INR (fact j) * / INR (fact k) * a (j + k)%nat).
  set (g := fun j k => / INR (fact j) * M ^ j * (/ INR (fact k) * M ^ k)).
  assert (Htr : forall N, triangle_sum f N = a O).
  { intros N. rewrite triangle_diagonal. unfold diagonal_sum.
    rewrite (sum_eq _ (fun m => / INR (fact m) * (-1 + 1) ^ m * a m)).
    - induction N as [|N IH].
      + simpl. rewrite Rinv_1. ring.
      + rewrite tech5, IH. replace (-1 + 1) with 0 by ring.
        rewrite pow_i by lia. ring.
    - intros m _. rewrite <- alt_binomial_row, Rmult_comm, scal_sum.
      apply sum_eq. intros j Hj. unfold f.
      replace (j + (m - j))%nat with m by lia. ring. }
  assert (Hfg : forall j k, Rabs (f j k) <= g j k).
  { intros j k. unfold f, g.
    replace (/ INR (fact j) * M ^ j * (/ INR (fact k) * M ^ k))
      with (/ INR (fact j) * / INR (fact k) * M ^ (j + k))
      by (rewrite pow_add; ring).
    rewrite !Rabs_mult, pow_1_abs.
    assert (0 < / INR (fact j)) by (apply Rinv_0_lt_compat, INR_fact_lt_0).
    assert (0 < / INR (fact k)) by (apply Rinv_0_lt_compat, INR_fact_lt_0).
    rewrite (Rabs_pos_eq (/ INR (fact j))), (Rabs_pos_eq (/ INR (fact k)))
      by lra.
    specialize (Ha (j + k)%nat).
    assert (0 <= / INR (fact j) * / INR (fact k)) by nra.
    nra. }
  assert (Hco : forall N, Rabs (corner_sum f N) <= corner_sum g N).
  { intros N. unfold corner_sum.
    eapply Rle_trans; [apply Rsum_abs|]. apply sum_Rle. intros j _.
    eapply Rle_trans; [apply Rsum_abs|]. apply sum_Rle. intros k _.
    destruct (k <=? N - j)%nat; [rewrite Rabs_R0; lra|apply Hfg]. }
  intros eps Heps.
  destruct (exp_corner_cv M eps Heps) as [N0 HN0].
  exists N0. intros n Hn. specialize (HN0 n Hn).
  unfold Rdist in *. rewrite Rminus_0_r in HN0.
  rewrite square_split, Htr.
  replace (a O + corner_sum f n - a O) with (corner_sum f n) by ring.
  eapply Rle_lt_trans; [apply Hco|].
  eapply Rle_lt_trans; [apply Rle_abs|]. exact HN0.
Qed.

(** ** Limits *)

Lemma Rlim_cv (u : nat -> R) : (exists l, Un_cv u l) -> Un_cv u (Rlim u).
Proof. intros H. unfold Rlim. apply epsilon_spec. exact H. Qed.

Lemma Rlim_eq (u : nat -> R) (l : R) : Un_cv u l -> Rlim u = l.
Proof.
  intros H. apply (UL_sequence u); [|exact H].
  apply Rlim_cv. exists l. exact H.
Qed.

Lemma Clim_eq (u : nat -> C) (l : C) : Ccv u l -> Clim u = l.
Proof.
  intros [Hr Hi]. unfold Clim.
  rewrite (Rlim_eq _ _ Hr), (Rlim_eq _ _ Hi). destruct l; reflexivity.
Qed.

Lemma Un_cv_ext (u v : nat -> R) (l : R) :
  (forall N, u N = v N) -> Un_cv u l -> Un_cv v l.
Proof.
  intros E H eps Heps. destruct (H eps Heps) as [N0 HN0].
  exists N0. intros n Hn. rewrite <- E. apply HN0, Hn.
Qed.

Lemma Un_cv_const (c : R) : Un_cv (fun _ => c) c.
Proof.
  intros eps Heps. exists O. intros n _.
  unfold Rdist. rewrite Rminus_diag, Rabs_R0. exact Heps.
Qed.

(** A sequence that converges does so along every subsequence that runs
    ahead of the identity. *)
Lemma Un_cv_subseq (u : nat -> R) (l : R) (phi : nat -> nat) :
  (forall m, (m <= phi m)%nat) -> Un_cv u l -> Un_cv (fun m => u (phi m)) l.
Proof.
  intros Hphi H eps Heps. destruct (H eps Heps) as [N0 HN0].
  exists N0. intros n Hn. apply HN0. specialize (Hphi n). lia.
Qed.

Lemma Ccv_ext (u v : nat -> C) (l : C) :
  (forall N, u N = v N) -> Ccv u l -> Ccv v l.
Proof.
  intros E [Hr Hi]. split.
  - apply (Un_cv_ext (fun N => Re (u N))); [intros; rewrite E|]; trivial.
  - apply (Un_cv_ext (fun N => Im (u N))); [intros; rewrite E|]; trivial.
Qed.

Lemma Ccv_unique (u : nat -> C) (l1 l2 : C) : Ccv u l1 -> Ccv u l2 -> l1 = l2.
Proof.
  intros [Hr1 Hi1] [Hr2 Hi2].
  apply C_eq; eapply UL_sequence; eassumption.
Qed.

Lemma Ccv_const (c : C) : Ccv (fun _ => c) c.
Proof. split; apply Un_cv_const. Qed.

Lemma Ccv_plus (u v : nat -> C) (l1 l2 : C) :
  Ccv u l1 -> Ccv v l2 -> Ccv (fun N => (u N + v N)%C) (l1 + l2)%C.
Proof.
  intros [Hr1 Hi1] [Hr2 Hi2]. split; simpl.
  - apply (CV_plus _ _ _ _ Hr1 Hr2).
  - apply (CV_plus _ _ _ _ Hi1 Hi2).
Qed.

Lemma Ccv_mult (u v : nat -> C) (l1 l2 : C) :
  Ccv u l1 -> Ccv v l2 -> Ccv (fun N => (u N * v N)%C) (l1 * l2)%C.
Proof.
  intros [Hr1 Hi1] [Hr2 Hi2]. split; simpl.
  - apply (CV_minus (fun N => Re (u N) * Re (v N))
                    (fun N => Im (u N) * Im (v N))).
    + apply (CV_mult _ _ _ _ Hr1 Hr2).
    + apply (CV_mult _ _ _ _ Hi1 Hi2).
  - apply (CV_plus (fun N => Re (u N) * Im (v N))
                   (fun N => Im (u N) * Re (v N))).
    + apply (CV_mult _ _ _ _ Hr1 Hi2).
    + apply (CV_mult _ _ _ _ Hi1 Hr2).
Qed.

Lemma Ccv_conj (u : nat -> C) (l : C) :
  Ccv u l -> Ccv (fun N => Cconj (u N)) (Cconj l).
Proof.
  intros [Hr Hi]. split; simpl; [exact Hr|].
  apply (CV_opp _ _ Hi).
Qed.

Lemma Ccv_Csum (f : nat -> nat -> C) (l : nat -> C) (n : nat) :
  (forall k, (k < n)%nat -> Ccv (fun N => f N k) (l k)) ->
  Ccv (fun N => Csum (f N) n) (Csum l n).
Proof.
  induction n as [|n IH]; intros H; simpl.
  - apply Ccv_const.
  - apply (Ccv_plus (fun N => Csum (f N) n) (fun N => f N n)).
    + apply IH. intros; apply H; lia.
    + apply H; lia.
Qed.

Lemma Ccv_subseq (u : nat -> C) (l : C) (phi : nat -> nat) :
  (forall m, (m <= phi m)%nat) -> Ccv u l -> Ccv (fun m => u (phi m)) l.
Proof.
  intros Hphi [Hr Hi]. split.
  - apply (Un_cv_subseq (fun N => Re (u N))); assumption.
  - apply (Un_cv_subseq (fun N => Im (u N))); assumption.
Qed.

(** A series whose terms are dominated by those of the exponential series
    converges. *)
Lemma exp_dominated_cv (a : nat -> R) (M : R) :
  (forall m, Rabs (a m) <= M ^ m) ->
  exists l, Un_cv (fun N => sum_f_R0 (fun k => / INR (fact k) * a k) N) l.
Proof.
  intros Ha.
  assert (Habs : {l | Un_cv
            (fun N => sum_f_R0 (fun k => Rabs (/ INR (fact k) * a k)) N) l}).
  { apply (Rseries_CV_comp _ (fun k => / INR (fact k) * M ^ k)).
    - intros k. split; [apply Rabs_pos|].
      assert (0 < / INR (fact k)) by (apply Rinv_0_lt_compat, INR_fact_lt_0).
      rewrite Rabs_mult, (Rabs_pos_eq (/ INR (fact k))) by lra.
      apply Rmult_le_compat_l; [lra|apply Ha].
    - exists (exp M). exact (E1_cvg M). }
  destruct (cv_cauchy_2 _ (cauchy_abs _ (cv_cauchy_1 _ Habs))) as [l Hl].
  exists l. exact Hl.
Qed.

(** ** Matrix products, powers and the convergence of the exponential
    series *)

Section MatrixAlgebra.

Variable n : nat.

Lemma Mmul_ext_r (A B B' : Mat) (i j : nat) :
  (forall k, (k < n)%nat -> B k j = B' k j) ->
  Mmul n A B i j = Mmul n A B' i j.
Proof.
  intros H. unfold Mmul. apply Csum_ext. intros k Hk. rewrite H by exact Hk.
  reflexivity.
Qed.

Lemma Mmul_assoc (X Y Z : Mat) (i j : nat) :
  Mmul n (Mmul n X Y) Z i j = Mmul n X (Mmul n Y Z) i j.
Proof.
  unfold Mmul.
  rewrite (Csum_ext _ (fun k => Csum (fun r => (X i r * Y r k * Z k j)%C) n))
    by (intros; rewrite <- Csum_mult_r; reflexivity).
  rewrite Csum_swap. apply Csum_ext. intros r _.
  rewrite <- Csum_mult_l. apply Csum_ext. intros k _. lca.
Qed.

Lemma Mmul_id_l (X : Mat) (i j : nat) :
  (i < n)%nat -> Mmul n Mid X i j = X i j.
Proof.
  intros Hi. unfold Mmul.
  rewrite (Csum_single _ n i Hi).
  - unfold Mid. rewrite Nat.eqb_refl. apply Cmult_1_l.
  - intros k _ Hk. unfold Mid.
    replace (i =? k)%nat with false
      by (symmetry; apply Nat.eqb_neq; congruence).
    apply Cmult_0_l.
Qed.

Lemma Mmul_id_r (X : Mat) (i j : nat) :
  (j < n)%nat -> Mmul n X Mid i j = X i j.
Proof.
  intros Hj. unfold Mmul.
  rewrite (Csum_single _ n j Hj).
  - unfold Mid. rewrite Nat.eqb_refl. apply Cmult_1_r.
  - intros k _ Hk. unfold Mid.
    replace (k =? j)%nat with false by (symmetry; apply Nat.eqb_neq; exact Hk).
    apply Cmult_0_r.
Qed.

Variable A : Mat.

Lemma Mpow_add (j k p q : nat) :
  (p < n)%nat ->
  Mmul n (Mpow n A j) (Mpow n A k) p q = Mpow n A (j + k) p q.
Proof.
  revert p q. induction j as [|j IH]; intros p q Hp.
  - apply Mmul_id_l, Hp.
  - simpl. rewrite Mmul_assoc. apply Mmul_ext_r.
    intros r Hr. apply IH, Hr.
Qed.

Lemma Mpow_S_r (k p q : nat) :
  (p < n)%nat -> (q < n)%nat ->
  Mpow n A (S k) p q = Mmul n (Mpow n A k) A p q.
Proof.
  intros Hp Hq.
  replace (S k) with (k + 1)%nat by lia.
  rewrite <- (Mpow_add k 1 p q Hp).
  apply Mmul_ext_r. intros r Hr. simpl. apply Mmul_id_r, Hq.
Qed.

Lemma Mnorm_nonneg : 0 <= Mnorm n A.
Proof.
  unfold Mnorm. apply Rsum_nonneg. intros i _.
  apply Rsum_nonneg. intros j _. apply Cn1_nonneg.
Qed.

Lemma row_norm_le (p : nat) :
  (p < n)%nat -> Rsum (fun r => Cn1 (A p r)) n <= Mnorm n A.
Proof.
  intros Hp. unfold Mnorm.
  apply (Rsum_term_le (fun i => Rsum (fun j => Cn1 (A i j)) n) n p); [|exact Hp].
  intros i _. apply Rsum_nonneg. intros j _. apply Cn1_nonneg.
Qed.

(** Entries of the [k]-th power are bounded by the [k]-th power of the
    norm. *)
Lemma Mpow_bound (k p q : nat) :
  (p < n)%nat -> Cn1 (Mpow n A k p q) <= Mnorm n A ^ k.
Proof.
  revert p q. induction k as [|k IH]; intros p q Hp.
  - simpl. unfold Mid, Cn1.
    destruct (p =? q)%nat; simpl; rewrite ?Rabs_R0, ?Rabs_R1; lra.
  - simpl. unfold Mmul.
    eapply Rle_trans; [apply Cn1_Csum|].
    eapply Rle_trans.
    + apply (Rsum_le _ (fun r => Cn1 (A p r) * Mnorm n A ^ k)).
      intros r Hr. eapply Rle_trans; [apply Cn1_mult|].
      apply Rmult_le_compat_l; [apply Cn1_nonneg|apply IH, Hr].
    + rewrite Rsum_scal_r.
      apply Rmult_le_compat_r; [apply pow_le, Mnorm_nonneg|].
      apply row_norm_le, Hp.
Qed.

Lemma Re_expm_partial (N p q : nat) :
  Re (expm_partial n A N p q) =
  sum_f_R0 (fun k => / INR (fact k) * Re (Mpow n A k p q)) N.
Proof.
  unfold expm_partial. rewrite Re_Csum, Rsum_sum_f_R0.
  apply sum_eq. intros k _. unfold expm_term. simpl. ring.
Qed.

Lemma Im_expm_partial (N p q : nat) :
  Im (expm_partial n A N p q) =
  sum_f_R0 (fun k => / INR (fact k) * Im (Mpow n A k p q)) N.
Proof.
  unfold expm_partial. rewrite Im_Csum, Rsum_sum_f_R0.
  apply sum_eq. intros k _. unfold expm_term. simpl. ring.
Qed.

(** The exponential series converges entrywise, for every matrix. *)
Theorem expm_partial_cv (p q : nat) :
  (p < n)%nat ->
  Ccv (fun N => expm_partial n A N p q) (expm_fun n A p q).
Proof.
  intros Hp. split; simpl; apply Rlim_cv.
  - destruct (exp_dominated_cv (fun k => Re (Mpow n A k p q)) (Mnorm n A))
      as [l Hl].
    + intros m. eapply Rle_trans; [apply Cn1_Re|apply Mpow_bound, Hp].
    + exists l. eapply Un_cv_ext; [|exact Hl].
      intros N. symmetry. apply Re_expm_partial.
  - destruct (exp_dominated_cv (fun k => Im (Mpow n A k p q)) (Mnorm n A))
      as [l Hl].
    + intros m. eapply Rle_trans; [apply Cn1_Im|apply Mpow_bound, Hp].
    + exists l. eapply Un_cv_ext; [|exact Hl].
      intros N. symmetry. apply Im_expm_partial.
Qed.

End MatrixAlgebra.

(** ** The exponential of a skew-Hermitian matrix is unitary *)

Section Unitary.

Variable n : nat.
Variable A : Mat.
Hypothesis skew : skew_hermitian_fun n A.

Lemma Mpow_adj (k p q : nat) :
  (p < n)%nat -> (q < n)%nat ->
  Cconj (Mpow n A k p q) = (RtoC ((-1) ^ k) * Mpow n A k q p)%C.
Proof.
  revert p q. induction k as [|k IH]; intros p q Hp Hq.
  - simpl. unfold Mid. rewrite (Nat.eqb_sym q p).
    destruct (p =? q)%nat; lca.
  - rewrite (Mpow_S_r n A k q p Hq Hp).
    simpl Mpow. unfold Mmul. rewrite Csum_conj, <- Csum_mult_l.
    apply Csum_ext. intros r Hr.
    rewrite Cconj_mult, (skew p r Hp Hr), (IH r q Hr Hq).
    apply C_eq; simpl; ring.
Qed.

(** The Gram matrix of the [N]-th partial sum, as an alternating double
    sum of powers of [A]. *)
Lemma gram_partial (N p q : nat) :
  (p < n)%nat -> (q < n)%nat ->
  Csum (fun r => (Cconj (expm_partial n A N r p) * expm_partial n A N r q)%C) n
  = Csum (fun j => Csum (fun k =>
      (RtoC ((-1) ^ j * / INR (fact j) * / INR (fact k))
       * Mpow n A (j + k) p q)%C) (S N)) (S N).
Proof.
  intros Hp Hq.
  transitivity
    (Csum (fun r => Csum (fun j => Csum (fun k =>
       (RtoC ((-1) ^ j * / INR (fact j) * / INR (fact k))
        * (Mpow n A j p r * Mpow n A k r q))%C) (S N)) (S N)) n).
  - apply Csum_ext. intros r Hr. unfold expm_partial.
    rewrite Csum_conj, <- Csum_mult_r. apply Csum_ext. intros j _.
    rewrite <- Csum_mult_l. apply Csum_ext. intros k _.
    unfold expm_term. rewrite Cconj_mult, (Mpow_adj j r p Hr Hp).
    apply C_eq; simpl; ring.
  - rewrite Csum_swap. apply Csum_ext. intros j _.
    rewrite Csum_swap. apply Csum_ext. intros k _.
    rewrite Csum_mult_l. f_equal. apply (Mpow_add n A j k p q Hp).
Qed.

Lemma Re_double_sum (c : nat -> nat -> R) (z : nat -> nat -> C) (N : nat) :
  Re (Csum (fun j => Csum (fun k => (RtoC (c j k) * z j k)%C) (S N)) (S N))
  = square_sum (fun j k => c j k * Re (z j k)) N.
Proof.
  unfold square_sum. rewrite Re_Csum, Rsum_sum_f_R0.
  apply sum_eq. intros j _. rewrite Re_Csum, Rsum_sum_f_R0.
  apply sum_eq. intros k _. simpl. ring.
Qed.

Lemma Im_double_sum (c : nat -> nat -> R) (z : nat -> nat -> C) (N : nat) :
  Im (Csum (fun j => Csum (fun k => (RtoC (c j k) * z j k)%C) (S N)) (S N))
  = square_sum (fun j k => c j k * Im (z j k)) N.
Proof.
  unfold square_sum. rewrite Im_Csum, Rsum_sum_f_R0.
  apply sum_eq. intros j _. rewrite Im_Csum, Rsum_sum_f_R0.
  apply sum_eq. intros k _. simpl. ring.
Qed.

Lemma gram_partial_cv (p q : nat) :
  (p < n)%nat -> (q < n)%nat ->
  Ccv (fun N => Csum (fun r =>
         (Cconj (expm_partial n A N r p) * expm_partial n A N r q)%C) n)
      (Mid p q).
Proof.
  intros Hp Hq.
  apply (Ccv_ext (fun N => Csum (fun j => Csum (fun k =>
      (RtoC ((-1) ^ j * / INR (fact j) * / INR (fact k))
       * Mpow n A (j + k) p q)%C) (S N)) (S N))).
  { intros N. symmetry. apply gram_partial; assumption. }
  split.
  - eapply Un_cv_ext.
    + intros N. symmetry.
      apply (Re_double_sum
               (fun j k => (-1) ^ j * / INR (fact j) * / INR (fact k))
               (fun j k => Mpow n A (j + k) p q)).
    + apply (alt_square_cv (fun m => Re (Mpow n A m p q)) (Mnorm n A)).
      intros m. eapply Rle_trans; [apply Cn1_Re|apply Mpow_bound, Hp].
  - eapply Un_cv_ext.
    + intros N. symmetry.
      apply (Im_double_sum
               (fun j k => (-1) ^ j * / INR (fact j) * / INR (fact k))
               (fun j k => Mpow n A (j + k) p q)).
    + apply (alt_square_cv (fun m => Im (Mpow n A m p q)) (Mnorm n A)).
      intros m. eapply Rle_trans; [apply Cn1_Im|apply Mpow_bound, Hp].
Qed.

Theorem expm_fun_unitary : unitary_fun n (expm_fun n A).
Proof.
  intros p q Hp Hq.
  apply (Ccv_unique (fun N => Csum (fun r =>
           (Cconj (expm_partial n A N r p) * expm_partial n A N r q)%C) n)).
  - apply (Ccv_Csum
             (fun N r => (Cconj (expm_partial n A N r p)
                          * expm_partial n A N r q)%C)
             (fun r => (Cconj (expm_fun n A r p) * expm_fun n A r q)%C)).
    intros r Hr.
    apply (Ccv_mult (fun N => Cconj (expm_partial n A N r p))
                    (fun N => expm_partial n A N r q)).
    + apply Ccv_conj, expm_partial_cv, Hr.
    + apply expm_partial_cv, Hr.
  - apply gram_partial_cv; assumption.
Qed.

End Unitary.

(** A matrix with orthonormal columns preserves inner products. *)
Lemma unitary_fun_inner (n : nat) (U : Mat) (x y : nat -> C) :
  unitary_fun n U ->
  Csum (fun i => (Cconj (Csum (fun p => (U i p * x p)%C) n)
                  * Csum (fun q => (U i q * y q)%C) n)%C) n
  = Csum (fun p => (Cconj (x p) * y p)%C) n.
Proof.
  intros HU.
  transitivity
    (Csum (fun i => Csum (fun p => Csum (fun q =>
       (Cconj (x p) * y q * (Cconj (U i p) * U i q))%C) n) n) n).
  - apply Csum_ext. intros i _.
    rewrite Csum_conj, <- Csum_mult_r. apply Csum_ext. intros p _.
    rewrite <- Csum_mult_l. apply Csum_ext. intros q _.
    rewrite Cconj_mult. lca.
  - rewrite Csum_swap. apply Csum_ext. intros p Hp.
    rewrite Csum_swap.
    rewrite (Csum_single _ n p Hp).
    + rewrite Csum_mult_l, (HU p p Hp Hp). unfold Mid.
      rewrite Nat.eqb_refl. lca.
    + intros q Hq Hne. rewrite Csum_mult_l, (HU p q Hp Hq). unfold Mid.
      replace (p =? q)%nat with false
        by (symmetry; apply Nat.eqb_neq; congruence).
      lca.
Qed.

(** ** The exponential series at an imaginary argument *)

Lemma Cn1_Cpow (z : C) (k : nat) : Cn1 (Cpow z k) <= Cn1 z ^ k.
Proof.
  induction k as [|k IH]; simpl.
  - unfold Cn1; simpl. rewrite Rabs_R0, Rabs_R1. lra.
  - eapply Rle_trans; [apply Cn1_mult|].
    apply Rmult_le_compat_l; [apply Cn1_nonneg|exact IH].
Qed.

Lemma Cpow_imag_even (t : R) (m : nat) :
  Cpow (mkC 0 t) (2 * m) = mkC ((-1) ^ m * t ^ (2 * m)) 0.
Proof.
  induction m as [|m IH]; [simpl; lca|].
  replace (2 * S m)%nat with (S (S (2 * m))) by lia.
  cbn [Cpow]. rewrite IH. apply C_eq; simpl; ring.
Qed.

Lemma Cpow_imag_odd (t : R) (m : nat) :
  Cpow (mkC 0 t) (2 * m + 1) = mkC 0 ((-1) ^ m * t ^ (2 * m + 1)).
Proof.
  replace (2 * m + 1)%nat with (S (2 * m)) by lia.
  cbn [Cpow]. rewrite Cpow_imag_even. apply C_eq; simpl; ring.
Qed.

Lemma cis_partial_odd (t : R) (m : nat) :
  cis_partial t (2 * m + 1) = mkC (A1 t m) (B1 t m).
Proof.
  unfold cis_partial, A1, B1. induction m as [|m IH].
  - simpl. rewrite Rinv_1. apply C_eq; simpl; field.
  - replace (S (2 * S m + 1)) with (S (S (S (2 * m + 1)))) by lia.
    do 2 rewrite (tech5 _ m).
    change (Csum ?f (S (S ?k))) with (Csum f (S k) + f (S k))%C.
    change (Csum ?f (S (S ?k))) with (Csum f (S k) + f (S k))%C at 1.
    rewrite IH.
    replace (S (S (2 * m + 1))) with (2 * S m + 1)%nat by lia.
    replace (S (2 * m + 1)) with (2 * S m)%nat by lia.
    rewrite Cpow_imag_even, Cpow_imag_odd.
    apply C_eq; simpl Re; simpl Im; unfold Rdiv; ring.
Qed.

Lemma cis_partial_cv (t : R) : Ccv (cis_partial t) (mkC (cos t) (sin t)).
Proof.
  assert (Hex : Ccv (cis_partial t) (Clim (cis_partial t))).
  { assert (Hre : forall N, Re (cis_partial t N) =
        sum_f_R0 (fun k => / INR (fact k) * Re (Cpow (mkC 0 t) k)) N).
    { intros N. unfold cis_partial. rewrite Re_Csum, Rsum_sum_f_R0.
      apply sum_eq. intros k _. simpl. ring. }
    assert (Him : forall N, Im (cis_partial t N) =
        sum_f_R0 (fun k => / INR (fact k) * Im (Cpow (mkC 0 t) k)) N).
    { intros N. unfold cis_partial. rewrite Im_Csum, Rsum_sum_f_R0.
      apply sum_eq. intros k _. simpl. ring. }
    split; simpl; apply Rlim_cv.
    - destruct (exp_dominated_cv (fun k => Re (Cpow (mkC 0 t) k))
                                 (Cn1 (mkC 0 t))) as [l Hl].
      + intros m. eapply Rle_trans; [apply Cn1_Re|apply Cn1_Cpow].
      + exists l. eapply Un_cv_ext; [|exact Hl]. intros N. symmetry. apply Hre.
    - destruct (exp_dominated_cv (fun k => Im (Cpow (mkC 0 t) k))
                                 (Cn1 (mkC 0 t))) as [l Hl].
      + intros m. eapply Rle_trans; [apply Cn1_Im|apply Cn1_Cpow].
      + exists l. eapply Un_cv_ext; [|exact Hl]. intros N. symmetry. apply Him. }
  assert (Hsub : Ccv (fun m => cis_partial t (2 * m + 1)) (mkC (cos t) (sin t))).
  { apply (Ccv_ext (fun m => mkC (A1 t m) (B1 t m))).
    - intros m. symmetry. apply cis_partial_odd.
    - split; simpl; [apply A1_cvg|apply B1_cvg]. }
  assert (Hphi : forall m, (m <= 2 * m + 1)%nat) by (intros; lia).
  rewrite <- (Ccv_unique _ _ _
                (Ccv_subseq _ _ (fun m => (2 * m + 1)%nat) Hphi Hex) Hsub).
  exact Hex.
Qed.

(** ** Exponentials of the zero matrix and of imaginary diagonal matrices *)

Section SpecialExponentials.

Variable n : nat.
Variable A : Mat.

Lemma Mpow_zero (k p q : nat) :
  (forall i j, (i < n)%nat -> (j < n)%nat -> A i j = C0) ->
  (p < n)%nat -> Mpow n A (S k) p q = C0.
Proof.
  intros Hz Hp. simpl. unfold Mmul. apply Csum_zero.
  intros r Hr. rewrite (Hz p r Hp Hr). apply Cmult_0_l.
Qed.

(** exp(0) = I. *)
Theorem expm_fun_zero (p q : nat) :
  (forall i j, (i < n)%nat -> (j < n)%nat -> A i j = C0) ->
  (p < n)%nat -> expm_fun n A p q = Mid p q.
Proof.
  intros Hz Hp. unfold expm_fun. apply Clim_eq.
  apply (Ccv_ext (fun _ => Mid p q)); [|apply Ccv_const].
  intros N. unfold expm_partial.
  rewrite (Csum_single _ (S N) O).
  - unfold expm_term. simpl. rewrite Rinv_1. symmetry. apply Cmult_1_l.
  - lia.
  - intros k _ Hk. destruct k as [|k]; [lia|].
    unfold expm_term. rewrite Mpow_zero by assumption. apply Cmult_0_r.
Qed.

Variable theta : nat -> R.

Lemma Mpow_diag (k p q : nat) :
  imag_diagonal_fun n A theta -> (p < n)%nat -> (q < n)%nat ->
  Mpow n A k p q = if (p =? q)%nat then Cpow (mkC 0 (theta p)) k else C0.
Proof.
  intros Hd. revert p q. induction k as [|k IH]; intros p q Hp Hq.
  - reflexivity.
  - simpl. unfold Mmul. rewrite (Csum_single _ n p Hp).
    + rewrite (Hd p p Hp Hp), Nat.eqb_refl, (IH p q Hp Hq).
      destruct (p =? q)%nat; [reflexivity|apply Cmult_0_r].
    + intros r Hr Hne. rewrite (Hd p r Hp Hr).
      replace (p =? r)%nat with false
        by (symmetry; apply Nat.eqb_neq; congruence).
      apply Cmult_0_l.
Qed.

(** exp(diag(i t_0, ..., i t_{n-1})) = diag(e^{i t_0}, ..., e^{i t_{n-1}}). *)
Theorem expm_fun_diag (p q : nat) :
  imag_diagonal_fun n A theta -> (p < n)%nat -> (q < n)%nat ->
  expm_fun n A p q =
  if (p =? q)%nat then Cexp (mkC 0 (theta p)) else C0.
Proof.
  intros Hd Hp Hq. unfold expm_fun. apply Clim_eq.
  destruct (p =? q)%nat eqn:Epq.
  - apply (Ccv_ext (cis_partial (theta p))).
    + intros N. unfold cis_partial, expm_partial. apply Csum_ext.
      intros k _. unfold expm_term.
      rewrite (Mpow_diag k p q Hd Hp Hq), Epq. reflexivity.
    + replace (Cexp (mkC 0 (theta p)))
        with (mkC (cos (theta p)) (sin (theta p)))
        by (unfold Cexp; simpl; rewrite exp_0; apply C_eq; simpl; ring).
      apply cis_partial_cv.
  - apply (Ccv_ext (fun _ => C0)); [|apply Ccv_const].
    intros N. unfold expm_partial. symmetry. apply Csum_zero.
    intros k _. unfold expm_term.
    rewrite (Mpow_diag k p q Hd Hp Hq), Epq. apply Cmult_0_r.
Qed.

End SpecialExponentials.

(** ** Arrays: shapes and entries *)

Lemma length_mat_build (r c : nat) (f : nat -> nat -> C) :
  rows (mat_build r c f) = r.
Proof. unfold rows, mat_build. rewrite length_map, length_seq. reflexivity. Qed.

Lemma get_mat_build (r c : nat) (f : nat -> nat -> C) (i j : nat) :
  (i < r)%nat -> (j < c)%nat -> get (mat_build r c f) i j = f i j.
Proof.
  intros Hi Hj. unfold get, mat_build.
  rewrite (nth_indep _ [] (map (fun j => f O j) (seq 0 c)))
    by (rewrite length_map, length_seq; exact Hi).
  rewrite (map_nth (fun i => map (fun j => f i j) (seq 0 c)) (seq 0 r) O i).
  rewrite seq_nth by exact Hi. simpl.
  rewrite (nth_indep _ C0 (f i O))
    by (rewrite length_map, length_seq; exact Hj).
  rewrite (map_nth (fun j => f i j) (seq 0 c) O j).
  rewrite seq_nth by exact Hj. reflexivity.
Qed.

Lemma cols_mat_build (r c : nat) (f : nat -> nat -> C) :
  (0 < r)%nat -> cols (mat_build r c f) = c.
Proof.
  intros Hr. destruct r as [|r]; [lia|].
  unfold mat_build. simpl. rewrite length_map, length_seq. reflexivity.
Qed.

Lemma rows_dot (A B : array) : rows (dot A B) = rows A.
Proof. apply length_mat_build. Qed.

Lemma get_dot (A B : array) (i j : nat) :
  (i < rows A)%nat -> (j < cols B)%nat ->
  get (dot A B) i j = Csum (fun k => (get A i k * get B k j)%C) (cols A).
Proof. intros Hi Hj. unfold dot. apply get_mat_build; assumption. Qed.

Lemma rows_expm (A : array) : rows (expm A) = rows A.
Proof. apply length_mat_build. Qed.

Lemma cols_expm (A : array) : (0 < rows A)%nat -> cols (expm A) = rows A.
Proof. apply cols_mat_build. Qed.

Lemma get_expm (A : array) (i j : nat) :
  (i < rows A)%nat -> (j < rows A)%nat ->
  get (expm A) i j = expm_fun (rows A) (get A) i j.
Proof. apply get_mat_build. Qed.

(** [expm] is total and is the exponential: every entry of [expm A] is the
    limit of the corresponding entries of the partial sums
    sum_{k <= N} A^k / k!, for every square array [A]. *)
Theorem expm_entry_limit (A : array) (i j : nat) :
  (i < rows A)%nat -> (j < rows A)%nat ->
  Ccv (fun N => expm_partial (rows A) (get A) N i j) (get (expm A) i j).
Proof.
  intros Hi Hj. rewrite get_expm by assumption.
  apply expm_partial_cv, Hi.
Qed.

(** ** The constants in closed form *)

(** Splits an equation between explicit arrays into its entries. *)
Ltac arr_eq :=
  repeat match goal with
         | |- (_ :: _) = (_ :: _) => apply (f_equal2 (@cons _))
         | |- [] = [] => reflexivity
         end.

Lemma sqrt3_sqr : sqrt 3 * sqrt 3 = 3.
Proof. apply sqrt_sqrt; lra. Qed.

Lemma sqrt3_pos : 0 < sqrt 3.
Proof. apply sqrt_lt_R0; lra. Qed.

Lemma sqrt3_neq_0 : sqrt 3 <> 0.
Proof. generalize sqrt3_pos; lra. Qed.

Lemma gm1_eq : gm1 = [[C0; C1; C0]; [C1; C0; C0]; [C0; C0; C0]].
Proof. cbv [gm1 q0 q1]; cbn; arr_eq; lca. Qed.

Lemma gm2_eq :
  gm2 = [[C0; (- Ci)%C; C0]; [Ci; C0; C0]; [C0; C0; C0]].
Proof. cbv [gm2 q0 q1]; cbn; arr_eq; lca. Qed.

Lemma gm3_eq : gm3 = [[C1; C0; C0]; [C0; RtoC (-1); C0]; [C0; C0; C0]].
Proof. cbv [gm3 q0 q1]; cbn; arr_eq; lca. Qed.

Lemma gm4_eq : gm4 = [[C0; C0; C1]; [C0; C0; C0]; [C1; C0; C0]].
Proof. cbv [gm4 q0 q2]; cbn; arr_eq; lca. Qed.

Lemma gm5_eq :
  gm5 = [[C0; C0; (- Ci)%C]; [C0; C0; C0]; [Ci; C0; C0]].
Proof. cbv [gm5 q0 q2]; cbn; arr_eq; lca. Qed.

Lemma gm6_eq : gm6 = [[C0; C0; C0]; [C0; C0; C1]; [C0; C1; C0]].
Proof. cbv [gm6 q1 q2]; cbn; arr_eq; lca. Qed.

Lemma gm7_eq :
  gm7 = [[C0; C0; C0]; [C0; C0; (- Ci)%C]; [C0; Ci; C0]].
Proof. cbv [gm7 q1 q2]; cbn; arr_eq; lca. Qed.

Lemma gm8_eq :
  gm8 = [[RtoC (1 / sqrt 3); C0; C0];
         [C0; RtoC (1 / sqrt 3); C0];
         [C0; C0; RtoC (-2 / sqrt 3)]].
Proof.
  cbv [gm8 q0 q1 q2]; cbn; arr_eq; apply C_eq; simpl; field;
    apply sqrt3_neq_0.
Qed.

Lemma LZ2_eq :
  LZ2 = [[RtoC 2; C0; C0]; [C0; C0; C0]; [C0; C0; RtoC (-2)]].
Proof.
  unfold LZ2. rewrite gm3_eq, gm8_eq. cbn; arr_eq; apply C_eq; simpl; field;
    apply sqrt3_neq_0.
Qed.

Lemma omega_eq : omega = mkC (-1 / 2) (sqrt 3 / 2).
Proof.
  unfold omega.
  replace (mkC 0 2 * RtoC PI / RtoC 3)%C with (mkC 0 (2 * (PI / 3)))
    by (apply C_eq; simpl; field).
  unfold Cexp; simpl. rewrite exp_0, cos_2PI3, sin_2PI3.
  apply C_eq; simpl; ring.
Qed.

Lemma omega'_eq : omega' = mkC (-1 / 2) (- (sqrt 3 / 2)).
Proof.
  unfold omega'.
  replace (- mkC 0 2 * RtoC PI / RtoC 3)%C with (mkC 0 (- (2 * (PI / 3))))
    by (apply C_eq; simpl; field).
  unfold Cexp; simpl. rewrite exp_0, cos_neg, sin_neg, cos_2PI3, sin_2PI3.
  apply C_eq; simpl; ring.
Qed.

Lemma H_eq :
  H = [[RtoC (1 / sqrt 3); RtoC (1 / sqrt 3); RtoC (1 / sqrt 3)];
       [RtoC (1 / sqrt 3); mkC (- (1 / sqrt 3) / 2) (1 / 2);
                           mkC (- (1 / sqrt 3) / 2) (- (1 / 2))];
       [RtoC (1 / sqrt 3); mkC (- (1 / sqrt 3) / 2) (- (1 / 2));
                           mkC (- (1 / sqrt 3) / 2) (1 / 2)]].
Proof.
  unfold H. rewrite omega_eq, omega'_eq. cbn; arr_eq; apply C_eq; simpl;
    field; apply sqrt3_neq_0.
Qed.

Lemma mat_build_ext (r c : nat) (f g : nat -> nat -> C) :
  (forall i j, (i < r)%nat -> (j < c)%nat -> f i j = g i j) ->
  mat_build r c f = mat_build r c g.
Proof.
  intros E. unfold mat_build. apply map_ext_in. intros i Hi.
  apply map_ext_in. intros j Hj.
  apply in_seq in Hi. apply in_seq in Hj. apply E; lia.
Qed.

Lemma LZZ2_eq :
  LZZ2 = diag_array [RtoC 4; C0; RtoC (-4); C0; C0; C0; RtoC (-4); C0; RtoC 4].
Proof. unfold LZZ2. rewrite LZ2_eq. cbn; arr_eq; lca. Qed.

Lemma rows_zeros (n : nat) : rows (zeros n) = n.
Proof. apply length_mat_build. Qed.

Lemma rows_diag_array (d : list C) : rows (diag_array d) = length d.
Proof. apply length_mat_build. Qed.

(** exp(0) = I, on arrays. *)
Theorem expm_zeros (n : nat) : expm (zeros n) = eye n.
Proof.
  unfold expm, eye. rewrite rows_zeros.
  apply mat_build_ext. intros p q Hp Hq.
  apply expm_fun_zero; [|exact Hp].
  intros i j Hi Hj. unfold zeros. apply get_mat_build; assumption.
Qed.

(** The exponential of an imaginary diagonal array. *)
Theorem expm_diag (ts : list R) :
  expm (diag_array (map (fun t => mkC 0 t) ts)) =
  diag_array (map (fun t => Cexp (mkC 0 t)) ts).
Proof.
  unfold expm. rewrite rows_diag_array. unfold diag_array at 2.
  rewrite !length_map.
  apply mat_build_ext. intros p q Hp Hq.
  rewrite (expm_fun_diag (length ts) _ (fun i => nth i ts 0) p q); trivial.
  - destruct (p =? q)%nat; [|reflexivity].
    rewrite (nth_indep _ C0 (Cexp (mkC 0 0))) by (rewrite length_map; exact Hp).
    rewrite (map_nth (fun t => Cexp (mkC 0 t))). reflexivity.
  - intros i j Hi Hj. unfold diag_array. rewrite length_map.
    rewrite get_mat_build by assumption.
    destruct (i =? j)%nat; [|reflexivity].
    change C0 with ((fun t => mkC 0 t) 0).
    rewrite (map_nth (fun t => mkC 0 t)). reflexivity.
Qed.

(** ** The loop of [encoding] *)

Lemma encoding_sum_low (a b c d : R) (rest : list R) :
  encoding_sum 0 (a :: b :: c :: d :: rest) = Some (gen_sum_low a b c d).
Proof.
  unfold encoding_sum, gen_sum_low. cbn. f_equal. arr_eq; lca.
Qed.

Lemma encoding_sum_high (a b c d : R) (rest : list R) :
  encoding_sum 4 (a :: b :: c :: d :: rest) = Some (gen_sum_high a b c d).
Proof.
  unfold encoding_sum, gen_sum_high. cbn. f_equal.
  arr_eq; apply C_eq; simpl; field; apply sqrt3_neq_0.
Qed.

(** The loop raises as soon as its range holds an index past the end of
    the vector. *)
Lemma encoding_loop_short (offset : nat) (vector : list R) (range : list nat) :
  forall sum,
    (exists i, In i range /\ (length vector <= i)%nat) ->
    encoding_loop offset vector range sum = None.
Proof.
  induction range as [|i range IH]; intros sum [k [Hin Hk]].
  - destruct Hin.
  - simpl. unfold encoding_term.
    destruct (nth_error vector i) as [v|] eqn:Ev; [|reflexivity].
    simpl. destruct (nth_error generators (i + offset)); [|reflexivity].
    simpl. apply IH. exists k. split; [|exact Hk].
    destruct Hin as [->|Hin]; [|exact Hin].
    apply nth_error_None in Hk. congruence.
Qed.

Lemma encoding_sum_short (offset : nat) (vector : list R) :
  (length vector < 4)%nat -> encoding_sum offset vector = None.
Proof.
  intros Hlen. unfold encoding_sum.
  rewrite encoding_loop_short; [reflexivity|].
  exists 3%nat. split; [simpl; tauto|lia].
Qed.

Lemma gen_sum_low_skew (a b c d : R) :
  skew_hermitian_fun 3 (get (gen_sum_low a b c d)).
Proof.
  intros i j Hi Hj.
  destruct i as [|[|[|i]]]; try lia; destruct j as [|[|[|j]]]; try lia;
    apply C_eq; simpl; ring.
Qed.

Lemma gen_sum_high_skew (a b c d : R) :
  skew_hermitian_fun 3 (get (gen_sum_high a b c d)).
Proof.
  intros i j Hi Hj.
  destruct i as [|[|[|i]]]; try lia; destruct j as [|[|[|j]]]; try lia;
    apply C_eq; simpl; field; apply sqrt3_neq_0.
Qed.

(** ** Unitary arrays and column vectors *)

Theorem expm_unitary (A : array) :
  skew_hermitian_fun (rows A) (get A) ->
  unitary_fun (rows A) (get (expm A)).
Proof.
  intros Hskew p q Hp Hq.
  rewrite (Csum_ext _ (fun r => (Cconj (expm_fun (rows A) (get A) r p)
                                 * expm_fun (rows A) (get A) r q)%C)).
  - apply (expm_fun_unitary (rows A) (get A) Hskew p q Hp Hq).
  - intros r Hr. rewrite !get_expm by assumption. reflexivity.
Qed.

Lemma inner_dot_unitary (n : nat) (U x y : array) :
  rows U = n -> cols U = n -> unitary_fun n (get U) ->
  rows x = n -> cols x = 1%nat -> cols y = 1%nat ->
  inner (dot U x) (dot U y) = inner x y.
Proof.
  intros Hr Hc HU Hx Hcx Hcy. unfold inner. rewrite rows_dot, Hr, Hx.
  rewrite <- (unitary_fun_inner n (get U) (col x) (col y) HU).
  apply Csum_ext. intros k Hk. unfold col.
  rewrite !get_dot by lia. rewrite Hc. reflexivity.
Qed.

Lemma Csum_norm2 (f : nat -> C) (n : nat) :
  Csum (fun k => (Cconj (f k) * f k)%C) n =
  RtoC (Rsum (fun k => Cnorm2 (f k)) n).
Proof.
  induction n as [|n IH]; simpl; [reflexivity|].
  rewrite IH, Cnorm2_conj. lca.
Qed.

Lemma inner_self (v : array) : inner v v = RtoC (norm2 v).
Proof. apply Csum_norm2. Qed.

Lemma inner_conj (u v : array) :
  rows u = rows v -> inner v u = Cconj (inner u v).
Proof.
  intros Hr. unfold inner. rewrite Csum_conj, Hr. apply Csum_ext.
  intros k _. rewrite Cconj_mult, Cconj_involutive. apply Cmult_comm.
Qed.

Lemma unit_qutrit_norm2 (psi : array) : unit_qutrit psi -> norm2 psi = 1.
Proof.
  intros (z0 & z1 & z2 & -> & Hn).
  unfold norm2, col, get, Cnorm2 in *. simpl. lra.
Qed.

Lemma unit_qutrit_q0 : unit_qutrit q0.
Proof.
  exists (RtoC 1), (RtoC 0), (RtoC 0). split; [reflexivity|].
  unfold Cnorm2; simpl; ring.
Qed.

Lemma Hq0_eq :
  dot H q0 = [[RtoC (1 / sqrt 3)]; [RtoC (1 / sqrt 3)]; [RtoC (1 / sqrt 3)]].
Proof. rewrite H_eq. cbn; arr_eq; lca. Qed.

Lemma unit_qutrit_Hq0 : unit_qutrit (dot H q0).
Proof.
  rewrite Hq0_eq. do 3 eexists. split; [reflexivity|].
  unfold Cnorm2; simpl. field_simplify; [|apply sqrt3_neq_0].
  rewrite <- Rsqr_pow2, Rsqr_sqrt by lra. field.
Qed.

(** Rotating a normalised qutrit by the exponential of a skew-Hermitian
    3 x 3 array gives a normalised qutrit. *)
Lemma unit_qutrit_rotate (S base : array) :
  rows S = 3%nat -> skew_hermitian_fun 3 (get S) -> unit_qutrit base ->
  unit_qutrit (dot (expm S) base).
Proof.
  intros HS Hskew Hbase.
  assert (Hn : norm2 (dot (expm S) base) = 1).
  { assert (Hi : inner (dot (expm S) base) (dot (expm S) base)
                 = inner base base).
    { destruct Hbase as (b0 & b1 & b2 & -> & _).
      apply (inner_dot_unitary 3); try reflexivity.
      - rewrite rows_expm. exact HS.
      - rewrite cols_expm; lia.
      - rewrite <- HS. apply expm_unitary. rewrite HS. exact Hskew. }
    rewrite !inner_self, (unit_qutrit_norm2 base Hbase) in Hi.
    apply (f_equal Re) in Hi. exact Hi. }
  destruct Hbase as (b0 & b1 & b2 & -> & _).
  revert Hn. unfold dot. rewrite rows_expm, HS.
  cbn [cols length].
  generalize (fun i j : nat =>
    Csum (fun k => (get (expm S) i k * get [[b0]; [b1]; [b2]] k j)%C)
         (cols (expm S))).
  intros f Hn. cbn [mat_build map seq] in *.
  exists (f 0%nat 0%nat), (f 1%nat 0%nat), (f 2%nat 0%nat).
  split; [reflexivity|].
  unfold norm2, col, get in Hn. simpl in Hn. lra.
Qed.

(** ** The complex numbers as a ring *)

Lemma C_ring_theory : ring_theory C0 C1 Cplus Cmult Cminus Copp eq.
Proof.
  constructor; intros; lca.
Qed.

Add Ring C_ring : C_ring_theory.

(** ** Entries of conjugated and scaled arrays, and the overlap of two
    column vectors *)

Lemma get_arr_conj (A : array) (i j : nat) :
  get (arr_conj A) i j = Cconj (get A i j).
Proof.
  unfold get, arr_conj.
  change (@nil C) with (map Cconj []) at 1. rewrite map_nth.
  destruct (Nat.lt_ge_cases j (length (nth i A []))) as [Hj|Hj].
  - rewrite (nth_indep _ C0 (Cconj C0)) by (rewrite length_map; exact Hj).
    apply map_nth.
  - rewrite !nth_overflow by (rewrite ?length_map; exact Hj). lca.
Qed.

Lemma cols_arr_conj (A : array) : cols (arr_conj A) = cols A.
Proof. destruct A as [|r A]; simpl; [|rewrite length_map]; reflexivity. Qed.

Lemma rows_arr_conj (A : array) : rows (arr_conj A) = rows A.
Proof. apply length_map. Qed.

Lemma cols_dot (A B : array) : (0 < rows A)%nat -> cols (dot A B) = cols B.
Proof. apply cols_mat_build. Qed.

(** [np.real(np.dot(u.conj().T, v)**2)[0][0]] is the real part of the square
    of the inner product of the columns [u] and [v]. *)
Lemma overlap_value (u v : array) :
  cols u = 1%nat -> cols v = 1%nat ->
  item00 (real (square (dot (transpose (arr_conj u)) v)))
  = Some (Re (inner u v * inner u v)).
Proof.
  intros Hu Hv. unfold dot, transpose.
  rewrite length_mat_build, cols_arr_conj, rows_arr_conj, Hu, Hv.
  rewrite cols_mat_build by lia.
  rewrite (mat_build_ext 1 1 _
    (fun i j => Csum (fun k => (Cconj (get u k 0) * get v k j)%C) (rows u))).
  - reflexivity.
  - intros i j Hi Hj. apply Csum_ext. intros k Hk.
    rewrite get_mat_build by lia. rewrite get_arr_conj.
    replace i with O by lia. reflexivity.
Qed.

(** ** The entangling gate *)

Lemma scal_Ci_diag (ts : list R) :
  scal Ci (diag_array (map RtoC ts)) = diag_array (map (fun t => mkC 0 t) ts).
Proof.
  unfold scal, diag_array, mat_build. rewrite !length_map, map_map.
  apply map_ext_in. intros i _. rewrite map_map. apply map_ext_in. intros j _.
  destruct (i =? j)%nat; [|lca].
  change C0 with (RtoC 0) at 1. rewrite (map_nth RtoC).
  change C0 with ((fun t => mkC 0 t) 0). rewrite (map_nth (fun t => mkC 0 t)).
  lca.
Qed.

Lemma LZZ2_diag_eq : LZZ2 = diag_array (map RtoC LZZ2_diag).
Proof. exact LZZ2_eq. Qed.

Lemma entangle_gate_eq :
  scal Ci LZZ2 = diag_array (map (fun t => mkC 0 t) LZZ2_diag).
Proof. rewrite LZZ2_diag_eq. apply scal_Ci_diag. Qed.

Lemma entangler_eq : expm (scal Ci LZZ2) = entangler.
Proof. rewrite entangle_gate_eq. apply expm_diag. Qed.

Lemma imag_diag_skew (ts : list R) :
  skew_hermitian_fun (length ts)
    (get (diag_array (map (fun t => mkC 0 t) ts))).
Proof.
  intros i j Hi Hj. unfold diag_array. rewrite length_map.
  rewrite !get_mat_build by assumption. rewrite (Nat.eqb_sym j i).
  destruct (i =? j)%nat eqn:E; [|lca].
  apply Nat.eqb_eq in E. subst j.
  change C0 with ((fun t => mkC 0 t) 0). rewrite (map_nth (fun t => mkC 0 t)).
  lca.
Qed.

Lemma entangler_unitary : unitary_fun 9 (get entangler).
Proof.
  rewrite <- entangler_eq, entangle_gate_eq.
  apply (expm_unitary (diag_array (map (fun t => mkC 0 t) LZZ2_diag))).
  apply (imag_diag_skew LZZ2_diag).
Qed.

(** ** Encoded states are normalised qutrits *)

Lemma unit_qutrit_cols (psi : array) : unit_qutrit psi -> cols psi = 1%nat.
Proof. intros (z0 & z1 & z2 & -> & _). reflexivity. Qed.

Lemma unit_qutrit_rows (psi : array) : unit_qutrit psi -> rows psi = 3%nat.
Proof. intros (z0 & z1 & z2 & -> & _). reflexivity. Qed.

Lemma unit_qutrit_inner (psi : array) : unit_qutrit psi -> inner psi psi = C1.
Proof.
  intros Hpsi. rewrite inner_self, (unit_qutrit_norm2 psi Hpsi). reflexivity.
Qed.

Lemma Seeds_encoding_unit (v : list R) :
  (4 <= length v)%nat ->
  exists psi, Seeds.encoding v = Some psi /\ unit_qutrit psi.
Proof.
  intros Hlen.
  destruct v as [|a [|b [|c [|d rest]]]]; simpl in Hlen; try lia.
  unfold Seeds.encoding. rewrite encoding_sum_low. cbn [bind].
  eexists. split; [reflexivity|].
  apply unit_qutrit_rotate;
    [reflexivity|apply gen_sum_low_skew|apply unit_qutrit_q0].
Qed.

Lemma Glass_encoding_unit (v : list R) :
  (4 <= length v)%nat ->
  exists psi, Glass.encoding v = Some psi /\ unit_qutrit psi.
Proof.
  intros Hlen.
  destruct v as [|a [|b [|c [|d rest]]]]; simpl in Hlen; try lia.
  unfold Glass.encoding. rewrite encoding_sum_low. cbn [bind].
  eexists. split; [reflexivity|].
  apply unit_qutrit_rotate;
    [reflexivity|apply gen_sum_low_skew|apply unit_qutrit_Hq0].
Qed.

Lemma Iris_encoding_unit (v : list R) :
  (4 <= length v)%nat ->
  exists psi, Iris.encoding v = Some psi /\ unit_qutrit psi.
Proof. exact (Glass_encoding_unit v). Qed.

Lemma Wine_encoding_unit (v : list R) :
  (4 <= length v)%nat ->
  exists psi, Wine.encoding v = Some psi /\ unit_qutrit psi.
Proof.
  intros Hlen.
  destruct v as [|a [|b [|c [|d rest]]]]; simpl in Hlen; try lia.
  unfold Wine.encoding. rewrite encoding_sum_high. cbn [bind].
  eexists. split; [reflexivity|].
  apply unit_qutrit_rotate;
    [reflexivity|apply gen_sum_high_skew|apply unit_qutrit_q0].
Qed.

(** Whatever [encoding] returns is a normalised qutrit. *)
Lemma Seeds_encoding_inv (v : list R) (psi : array) :
  Seeds.encoding v = Some psi -> unit_qutrit psi.
Proof.
  intros E. destruct (le_lt_dec 4 (length v)) as [Hlen|Hlen].
  - destruct (Seeds_encoding_unit v Hlen) as (psi' & E' & Hu). congruence.
  - unfold Seeds.encoding in E. rewrite encoding_sum_short in E by exact Hlen.
    discriminate.
Qed.

Lemma Glass_encoding_inv (v : list R) (psi : array) :
  Glass.encoding v = Some psi -> unit_qutrit psi.
Proof.
  intros E. destruct (le_lt_dec 4 (length v)) as [Hlen|Hlen].
  - destruct (Glass_encoding_unit v Hlen) as (psi' & E' & Hu). congruence.
  - unfold Glass.encoding in E. rewrite encoding_sum_short in E by exact Hlen.
    discriminate.
Qed.

Lemma Iris_encoding_inv (v : list R) (psi : array) :
  Iris.encoding v = Some psi -> unit_qutrit psi.
Proof. exact (Glass_encoding_inv v psi). Qed.

Lemma Wine_encoding_inv (v : list R) (psi : array) :
  Wine.encoding v = Some psi -> unit_qutrit psi.
Proof.
  intros E. destruct (le_lt_dec 4 (length v)) as [Hlen|Hlen].
  - destruct (Wine_encoding_unit v Hlen) as (psi' & E' & Hu). congruence.
  - unfold Wine.encoding in E. rewrite encoding_sum_short in E by exact Hlen.
    discriminate.
Qed.

(** ** Inner products of tensor states *)

Lemma inner_kron_qutrits (a b a' b' : array) :
  unit_qutrit a -> unit_qutrit b -> unit_qutrit a' -> unit_qutrit b' ->
  inner (kron a b) (kron a' b') = (inner a a' * inner b b')%C.
Proof.
  intros (a0 & a1 & a2 & -> & _) (b0 & b1 & b2 & -> & _)
         (c0 & c1 & c2 & -> & _) (d0 & d1 & d2 & -> & _).
  unfold inner, col, get.
  cbn [kron flat_map map app rows length Csum nth].
  rewrite !Cconj_mult. ring.
Qed.

Lemma kron_qutrits_shape (a b : array) :
  unit_qutrit a -> unit_qutrit b ->
  rows (kron a b) = 9%nat /\ cols (kron a b) = 1%nat.
Proof.
  intros (a0 & a1 & a2 & -> & _) (b0 & b1 & b2 & -> & _).
  split; reflexivity.
Qed.

Lemma entangler_rows : rows entangler = 9%nat.
Proof. reflexivity. Qed.

Lemma entangler_cols : cols entangler = 9%nat.
Proof. reflexivity. Qed.

(** The overlap computed by the two-qutrit kernels: the entangling gate is
    unitary, so it drops out of the inner product. *)
Lemma entangled_inner (e1 e2 e1' e2' : array) :
  unit_qutrit e1 -> unit_qutrit e2 -> unit_qutrit e1' -> unit_qutrit e2' ->
  inner (dot (expm (scal Ci LZZ2)) (kron e1 e2))
        (dot (expm (scal Ci LZZ2)) (kron e1' e2'))
  = (inner e1 e1' * inner e2 e2')%C.
Proof.
  intros H1 H2 H1' H2'. rewrite entangler_eq.
  destruct (kron_qutrits_shape e1 e2 H1 H2) as [Hr Hc].
  destruct (kron_qutrits_shape e1' e2' H1' H2') as [Hr' Hc'].
  rewrite (inner_dot_unitary 9 entangler); trivial.
  - apply inner_kron_qutrits; assumption.
  - apply entangler_unitary.
Qed.

Lemma entangled_overlap (e1 e2 e1' e2' : array) :
  unit_qutrit e1 -> unit_qutrit e2 -> unit_qutrit e1' -> unit_qutrit e2' ->
  item00 (real (square (dot
    (transpose (arr_conj (dot (expm (scal Ci LZZ2)) (kron e1 e2))))
    (dot (expm (scal Ci LZZ2)) (kron e1' e2')))))
  = Some (Re ((inner e1 e1' * inner e2 e2') * (inner e1 e1' * inner e2 e2'))).
Proof.
  intros H1 H2 H1' H2'.
  destruct (kron_qutrits_shape e1 e2 H1 H2) as [Hr Hc].
  destruct (kron_qutrits_shape e1' e2' H1' H2') as [Hr' Hc'].
  rewrite overlap_value.
  - rewrite entangled_inner by assumption. reflexivity.
  - rewrite cols_dot; [exact Hc|]. rewrite entangler_eq, entangler_rows. lia.
  - rewrite cols_dot; [exact Hc'|]. rewrite entangler_eq, entangler_rows. lia.
Qed.

(** ** Values of the kernels *)

Lemma slice_length {X : Type} (lo hi : nat) (x : list X) :
  (lo <= hi)%nat -> (hi <= length x)%nat ->
  length (slice lo hi x) = (hi - lo)%nat.
Proof.
  intros Hlo Hhi. unfold slice. rewrite length_firstn, length_skipn. lia.
Qed.

Lemma slice_from_length {X : Type} (lo : nat) (x : list X) :
  length (slice_from lo x) = (length x - lo)%nat.
Proof. unfold slice_from. apply length_skipn. Qed.

(** [np.real(c**2)] does not change when the two states are swapped. *)
Lemma Re_sqr_inner_swap (a b a' b' : array) :
  rows a = rows a' -> rows b = rows b' ->
  Re ((inner a' a * inner b' b) * (inner a' a * inner b' b))
  = Re ((inner a a' * inner b b') * (inner a a' * inner b b')).
Proof.
  intros Ha Hb.
  rewrite (inner_conj a a' Ha), (inner_conj b b' Hb), <- Cconj_mult.
  apply Re_sqr_conj.
Qed.

Lemma Seeds_kernel_value (x1 x2 : list R) (e1 e2 e1' e2' : array) :
  Seeds.encoding (slice 0 4 x1) = Some e1 ->
  Seeds.encoding (slice_from 4 x1) = Some e2 ->
  Seeds.encoding (slice 0 4 x2) = Some e1' ->
  Seeds.encoding (slice_from 4 x2) = Some e2' ->
  Seeds.kernel x1 x2
  = Some (Re ((inner e1 e1' * inner e2 e2') * (inner e1 e1' * inner e2 e2'))).
Proof.
  intros E1 E2 E1' E2'. unfold Seeds.kernel.
  rewrite E1, E2, E1', E2'. cbn [bind]. cbv zeta.
  apply entangled_overlap; eapply Seeds_encoding_inv; eassumption.
Qed.

Lemma Glass_kernel_value (x1 x2 : list R) (e1 e2 e1' e2' : array) :
  Glass.encoding (slice 0 4 x1) = Some e1 ->
  Glass.encoding (slice_from 4 x1) = Some e2 ->
  Glass.encoding (slice 0 4 x2) = Some e1' ->
  Glass.encoding (slice_from 4 x2) = Some e2' ->
  Glass.kernel x1 x2
  = Some (Re ((inner e1 e1' * inner e2 e2') * (inner e1 e1' * inner e2 e2'))).
Proof.
  intros E1 E2 E1' E2'. unfold Glass.kernel.
  rewrite E1, E2, E1', E2'. cbn [bind]. cbv zeta.
  apply entangled_overlap; eapply Glass_encoding_inv; eassumption.
Qed.

Lemma Iris_kernel_value (x1 x2 : list R) (e e' : array) :
  Iris.encoding x1 = Some e ->
  Iris.encoding x2 = Some e' ->
  Iris.kernel x1 x2
  = Some (Re ((inner e e' * inner e e') * (inner e e' * inner e e'))).
Proof.
  intros E E'. unfold Iris.kernel.
  rewrite E, E'. cbn [bind]. cbv zeta.
  apply entangled_overlap; eapply Iris_encoding_inv; eassumption.
Qed.

Lemma inner_kron3_qutrits (a b c a' b' c' : array) :
  unit_qutrit a -> unit_qutrit b -> unit_qutrit c ->
  unit_qutrit a' -> unit_qutrit b' -> unit_qutrit c' ->
  cols (kron (kron a b) c) = 1%nat /\
  cols (kron (kron a' b') c') = 1%nat /\
  inner (kron (kron a b) c) (kron (kron a' b') c')
  = (inner a a' * inner b b' * inner c c')%C.
Proof.
  intros (a0 & a1 & a2 & -> & _) (b0 & b1 & b2 & -> & _)
         (c0 & c1 & c2 & -> & _) (x0 & x1 & x2 & -> & _)
         (y0 & y1 & y2 & -> & _) (z0 & z1 & z2 & -> & _).
  split; [reflexivity|]. split; [reflexivity|].
  unfold inner, col, get.
  cbn [kron flat_map map app rows length Csum nth].
  rewrite !Cconj_mult. ring.
Qed.

Lemma Wine_kernel_value (x1 x2 : list R) (e1 e2 e3 e1' : array) :
  Wine.encoding (slice 0 4 x1) = Some e1 ->
  Wine.encoding (slice 4 8 x1) = Some e2 ->
  Wine.encoding (slice 8 12 x1) = Some e3 ->
  Wine.encoding (slice 0 4 x2) = Some e1' ->
  Wine.kernel x1 x2 = Some (Re (inner e1 e1' * inner e1 e1')).
Proof.
  intros E1 E2 E3 E1'. unfold Wine.kernel.
  rewrite E1, E2, E3, E1'. cbn [bind]. cbv zeta.
  assert (H1 := Wine_encoding_inv _ _ E1).
  assert (H2 := Wine_encoding_inv _ _ E2).
  assert (H3 := Wine_encoding_inv _ _ E3).
  assert (H1' := Wine_encoding_inv _ _ E1').
  destruct (inner_kron3_qutrits e1 e2 e3 e1' e2 e3 H1 H2 H3 H1' H2 H3)
    as (Hc & Hc' & Hi).
  rewrite overlap_value by assumption.
  rewrite Hi, (unit_qutrit_inner e2 H2), (unit_qutrit_inner e3 H3).
  do 2 f_equal. ring.
Qed.

(** * Part III: the properties stated by the specification *)

(** ** Encoding *)

(** C9.  For every input vector with fewer than 4 components, [encoding]
    does not return an encoded state: the loop reads components 0 to 3
    unconditionally, and the evaluation ends in the IndexError branch
    ([None]) in each of the four notebooks. *)
Theorem encoding_short_vector_raises (v : list R) :
  (length v < 4)%nat ->
  Seeds.encoding v = None /\ Glass.encoding v = None /\
  Iris.encoding v = None /\ Wine.encoding v = None.
Proof.
  intros Hlen.
  unfold Seeds.encoding, Glass.encoding, Iris.encoding, Wine.encoding.
  rewrite !encoding_sum_short by exact Hlen. repeat split; reflexivity.
Qed.

Lemma encoding_short_vector_raises_witness :
  Seeds.encoding [1; 2; 3] = None /\ Glass.encoding [1; 2; 3] = None /\
  Iris.encoding [1; 2; 3] = None /\ Wine.encoding [1; 2; 3] = None.
Proof. apply (encoding_short_vector_raises [1; 2; 3]). simpl. lia. Defined.

Lemma gen_sum_low_zero : gen_sum_low 0 0 0 0 = zeros 3.
Proof. unfold gen_sum_low. cbn; arr_eq; lca. Qed.

Lemma gen_sum_high_zero : gen_sum_high 0 0 0 0 = zeros 3.
Proof.
  unfold gen_sum_high. cbn; arr_eq; apply C_eq; simpl; try field;
    try apply sqrt3_neq_0; ring.
Qed.

Lemma dot_eye3 (z0 z1 z2 : C) :
  dot (eye 3) [[z0]; [z1]; [z2]] = [[z0]; [z1]; [z2]].
Proof. cbn; arr_eq; destruct z0, z1, z2; lca. Qed.

Lemma zero_vector_inv (n : nat) :
  (4 <= n)%nat -> exists rest, zero_vector n = 0 :: 0 :: 0 :: 0 :: rest.
Proof.
  intros Hn. destruct n as [|[|[|[|n]]]]; try lia.
  exists (zero_vector n). reflexivity.
Qed.

Lemma encoding_zeros (rest : list R) :
  Seeds.encoding (0 :: 0 :: 0 :: 0 :: rest) = Some q0 /\
  Glass.encoding (0 :: 0 :: 0 :: 0 :: rest) = Some (dot H q0) /\
  Iris.encoding (0 :: 0 :: 0 :: 0 :: rest) = Some (dot H q0) /\
  Wine.encoding (0 :: 0 :: 0 :: 0 :: rest) = Some q0.
Proof.
  unfold Seeds.encoding, Glass.encoding, Iris.encoding, Wine.encoding.
  rewrite encoding_sum_low, encoding_sum_high. cbn [bind].
  rewrite gen_sum_low_zero, gen_sum_high_zero, expm_zeros.
  rewrite Hq0_eq. unfold q0. rewrite !dot_eye3. repeat split; reflexivity.
Qed.

(** C6.  [encoding] applied to the all-zero feature vector returns the base
    vector unchanged, because [expm] of the zero matrix is the identity:
    [q0] in the Seeds and Wine notebooks, [np.dot(H, q0)] in the Glass and
    Iris notebooks. *)
Theorem encoding_zero_vector (n : nat) :
  (4 <= n)%nat ->
  Seeds.encoding (zero_vector n) = Some q0 /\
  Glass.encoding (zero_vector n) = Some (dot H q0) /\
  Iris.encoding (zero_vector n) = Some (dot H q0) /\
  Wine.encoding (zero_vector n) = Some q0.
Proof.
  intros Hn. destruct (zero_vector_inv n Hn) as [rest ->].
  apply encoding_zeros.
Qed.

Lemma encoding_zero_vector_witness :
  Seeds.encoding (zero_vector 4) = Some q0 /\
  Glass.encoding (zero_vector 4) = Some (dot H q0) /\
  Iris.encoding (zero_vector 4) = Some (dot H q0) /\
  Wine.encoding (zero_vector 4) = Some q0.
Proof. apply (encoding_zero_vector 4). lia. Defined.

(** C5.  For every input vector with at least 4 real components, the
    complex 3-vector returned by [encoding] has norm 1, in each notebook. *)
Theorem encoding_unit_norm (v : list R) :
  (4 <= length v)%nat ->
  (exists psi, Seeds.encoding v = Some psi /\ shape 3 1 psi /\ norm psi = 1) /\
  (exists psi, Glass.encoding v = Some psi /\ shape 3 1 psi /\ norm psi = 1) /\
  (exists psi, Iris.encoding v = Some psi /\ shape 3 1 psi /\ norm psi = 1) /\
  (exists psi, Wine.encoding v = Some psi /\ shape 3 1 psi /\ norm psi = 1).
Proof.
  intros Hlen.
  assert (Hu : forall psi, unit_qutrit psi -> shape 3 1 psi /\ norm psi = 1).
  { intros psi Hpsi. split.
    - destruct Hpsi as (z0 & z1 & z2 & -> & _).
      split; [reflexivity|repeat constructor].
    - unfold norm. rewrite (unit_qutrit_norm2 psi Hpsi). apply sqrt_1. }
  destruct (Seeds_encoding_unit v Hlen) as (p1 & E1 & H1).
  destruct (Glass_encoding_unit v Hlen) as (p2 & E2 & H2).
  destruct (Iris_encoding_unit v Hlen) as (p3 & E3 & H3).
  destruct (Wine_encoding_unit v Hlen) as (p4 & E4 & H4).
  repeat split; eexists; (split; [eassumption|apply Hu; assumption]).
Qed.

Lemma encoding_unit_norm_witness :
  (exists psi, Seeds.encoding [1; 2; 3; 4] = Some psi
               /\ shape 3 1 psi /\ norm psi = 1) /\
  (exists psi, Glass.encoding [1; 2; 3; 4] = Some psi
               /\ shape 3 1 psi /\ norm psi = 1) /\
  (exists psi, Iris.encoding [1; 2; 3; 4] = Some psi
               /\ shape 3 1 psi /\ norm psi = 1) /\
  (exists psi, Wine.encoding [1; 2; 3; 4] = Some psi
               /\ shape 3 1 psi /\ norm psi = 1).
Proof. apply (encoding_unit_norm [1; 2; 3; 4]). simpl. lia. Defined.

(** ** Constants *)

(** C7.  With basis vector [q0 = (1, 0, 0)], the generator [gm8] is the
    diagonal matrix diag(1/sqrt 3, 1/sqrt 3, -2/sqrt 3), and the Hadamard
    operator applied to [q0] is (1/sqrt 3) (1, 1, 1) (with global phase 1). *)
Theorem gm8_and_hadamard_q0 :
  gm8 = diag_array [RtoC (1 / sqrt 3); RtoC (1 / sqrt 3); RtoC (-2 / sqrt 3)]
  /\ dot H q0 = scal (RtoC (1 / sqrt 3)) [[RtoC 1]; [RtoC 1]; [RtoC 1]].
Proof.
  split.
  - rewrite gm8_eq. reflexivity.
  - rewrite Hq0_eq. cbn; arr_eq; lca.
Qed.

Ltac gm_hermitian_traceless :=
  split;
  [ unfold hermitian; cbn; arr_eq; apply C_eq; simpl; ring
  | unfold trace, get; cbn; apply C_eq; simpl;
    try ring; field; apply sqrt3_neq_0 ].

Lemma generators_hermitian_traceless :
  Forall (fun g => hermitian g /\ trace g = C0) generators.
Proof.
  unfold generators.
  rewrite gm1_eq, gm2_eq, gm3_eq, gm4_eq, gm5_eq, gm6_eq, gm7_eq, gm8_eq.
  repeat (apply Forall_cons; [gm_hermitian_traceless|]). apply Forall_nil.
Qed.

Lemma inv_sqrt3 : 1 / sqrt 3 = sqrt 3 / 3.
Proof.
  generalize sqrt3_sqr sqrt3_neq_0. intros Hs Hn.
  apply (Rmult_eq_reg_r (sqrt 3)); [|exact Hn].
  unfold Rdiv. rewrite Rmult_1_l, Rinv_l by exact Hn. lra.
Qed.

Lemma hadamard_unitary : dot H (transpose (arr_conj H)) = eye 3.
Proof.
  rewrite H_eq, inv_sqrt3. generalize sqrt3_sqr. generalize (sqrt 3).
  intros s Hs. cbn; arr_eq; apply C_eq; simpl; nra.
Qed.

Lemma nth_mat_build (r c : nat) (f : nat -> nat -> C) (i : nat) :
  (i < r)%nat -> nth i (mat_build r c f) [] = map (fun j => f i j) (seq 0 c).
Proof.
  intros Hi. unfold mat_build.
  rewrite (nth_indep _ [] ((fun i => map (fun j => f i j) (seq 0 c)) O))
    by (rewrite length_map, length_seq; exact Hi).
  rewrite (map_nth (fun i => map (fun j => f i j) (seq 0 c))).
  rewrite seq_nth by exact Hi. reflexivity.
Qed.

Lemma get_mat_build_out (r c : nat) (f : nat -> nat -> C) (i j : nat) :
  (r <= i)%nat \/ (c <= j)%nat -> get (mat_build r c f) i j = C0.
Proof.
  intros Hout. unfold get.
  destruct (Nat.lt_ge_cases i r) as [Hi|Hi].
  - rewrite nth_mat_build by exact Hi.
    apply nth_overflow. rewrite length_map, length_seq. lia.
  - rewrite (nth_overflow _ [])
      by (unfold mat_build; rewrite length_map, length_seq; exact Hi).
    destruct j; reflexivity.
Qed.

Lemma diag_array_is_diagonal (d : list C) : is_diagonal (diag_array d).
Proof.
  intros i j Hne. unfold diag_array.
  destruct (Nat.lt_ge_cases i (length d)) as [Hi|Hi];
    [destruct (Nat.lt_ge_cases j (length d)) as [Hj|Hj]|].
  - rewrite get_mat_build by assumption.
    replace (i =? j)%nat with false
      by (symmetry; apply Nat.eqb_neq; exact Hne).
    reflexivity.
  - apply get_mat_build_out. right. exact Hj.
  - apply get_mat_build_out. left. exact Hi.
Qed.

Lemma unit_diag_unitary (z0 z1 z2 z3 z4 z5 z6 z7 z8 : C) :
  Forall (fun z => Cnorm2 z = 1) [z0; z1; z2; z3; z4; z5; z6; z7; z8] ->
  let E := diag_array [z0; z1; z2; z3; z4; z5; z6; z7; z8] in
  dot E (transpose (arr_conj E)) = eye 9 /\
  dot (transpose (arr_conj E)) E = eye 9.
Proof.
  intros Hn. unfold Cnorm2 in Hn.
  repeat match goal with
         | H : Forall _ (_ :: _) |- _ =>
             let H1 := fresh "Hz" in inversion H as [|? ? H1 ?]; subst; clear H
         end.
  split; cbn; arr_eq; apply C_eq; simpl; nra.
Qed.

(** C8.  Each of the eight generators gm1..gm8 is Hermitian and has trace
    zero; the qutrit Hadamard operator satisfies H . H^dagger = I; LZZ2 is
    diagonal, and its exponential exp(i LZZ2) is unitary. *)
Theorem operators_well_formed :
  Forall (fun g => hermitian g /\ trace g = C0) generators /\
  dot H (transpose (arr_conj H)) = eye 3 /\
  is_diagonal LZZ2 /\
  dot (expm (scal Ci LZZ2)) (transpose (arr_conj (expm (scal Ci LZZ2))))
    = eye 9 /\
  dot (transpose (arr_conj (expm (scal Ci LZZ2)))) (expm (scal Ci LZZ2))
    = eye 9.
Proof.
  split; [exact generators_hermitian_traceless|].
  split; [exact hadamard_unitary|].
  split; [rewrite LZZ2_diag_eq; apply diag_array_is_diagonal|].
  rewrite entangler_eq. unfold entangler, LZZ2_diag. cbn [map].
  apply unit_diag_unitary.
  repeat (apply Forall_cons; [apply Cnorm2_Cexp_imag|]). apply Forall_nil.
Qed.

(** ** Kernels *)

Lemma mapM_defined {X Y : Type} (f : X -> option Y) (l : list X) :
  (forall x, In x l -> exists y, f x = Some y) ->
  exists ys, mapM f l = Some ys.
Proof.
  induction l as [|x l IH]; intros Hf.
  - exists []. reflexivity.
  - destruct (Hf x (or_introl eq_refl)) as [y Hy].
    destruct IH as [ys Hys]; [intros; apply Hf; right; assumption|].
    exists (y :: ys). simpl. rewrite Hy. simpl. rewrite Hys. reflexivity.
Qed.

Lemma mapM_nth_error {X Y : Type} (f : X -> option Y) (l : list X)
    (ys : list Y) (i : nat) (x : X) :
  mapM f l = Some ys -> nth_error l i = Some x ->
  exists y, nth_error ys i = Some y /\ f x = Some y.
Proof.
  revert ys i. induction l as [|a l IH]; intros ys i Hm Hx.
  - destruct i; discriminate.
  - simpl in Hm. destruct (f a) as [y|] eqn:Ea; [|discriminate].
    simpl in Hm. destruct (mapM f l) as [ys'|] eqn:El; [|discriminate].
    simpl in Hm. injection Hm as <-.
    destruct i as [|i]; simpl in *.
    + injection Hx as <-. exists y. split; [reflexivity|exact Ea].
    + apply (IH ys' i eq_refl Hx).
Qed.

(** If a kernel is defined on vectors of length [n] and is 1 on equal
    arguments, the diagonal of its kernel matrix is 1. *)
Lemma kernel_matrix_diag (kernel : list R -> list R -> option R) (n : nat)
    (A : list (list R)) :
  (forall x1 x2, length x1 = n -> length x2 = n ->
     exists k, kernel x1 x2 = Some k) ->
  (forall x, length x = n -> kernel x x = Some 1) ->
  Forall (fun a => length a = n) A ->
  exists K,
    kernel_matrix_of kernel A A = Some K /\
    forall i, (i < length A)%nat ->
      exists row, nth_error K i = Some row /\ nth_error row i = Some 1.
Proof.
  intros Hdef Hself HA. rewrite Forall_forall in HA.
  destruct (mapM_defined (fun a => mapM (fun b => kernel a b) A) A)
    as [K HK].
  { intros a Ha. apply mapM_defined. intros b Hb.
    apply Hdef; apply HA; assumption. }
  exists K. split; [exact HK|].
  intros i Hi.
  destruct (nth_error A i) as [a|] eqn:Ea;
    [|apply nth_error_None in Ea; lia].
  destruct (mapM_nth_error _ A K i a HK Ea) as (row & Hrow & Hm).
  exists row. split; [exact Hrow|].
  destruct (mapM_nth_error _ A row i a Hm Ea) as (k & Hk & Hka).
  rewrite Hk. rewrite <- Hka. apply Hself.
  apply HA. apply (nth_error_In A i Ea).
Qed.

Lemma Seeds_slices_defined (x : list R) :
  length x = 8%nat ->
  exists e1 e2,
    Seeds.encoding (slice 0 4 x) = Some e1 /\
    Seeds.encoding (slice_from 4 x) = Some e2 /\
    unit_qutrit e1 /\ unit_qutrit e2.
Proof.
  intros Hlen.
  destruct (Seeds_encoding_unit (slice 0 4 x)) as (e1 & E1 & H1).
  { rewrite slice_length by lia. lia. }
  destruct (Seeds_encoding_unit (slice_from 4 x)) as (e2 & E2 & H2).
  { rewrite slice_from_length. lia. }
  exists e1, e2. tauto.
Qed.

Lemma Seeds_kernel_self (x : list R) :
  length x = 8%nat -> Seeds.kernel x x = Some 1.
Proof.
  intros Hlen.
  destruct (Seeds_slices_defined x Hlen) as (e1 & e2 & E1 & E2 & H1 & H2).
  rewrite (Seeds_kernel_value x x e1 e2 e1 e2 E1 E2 E1 E2).
  rewrite (unit_qutrit_inner e1 H1), (unit_qutrit_inner e2 H2).
  f_equal. simpl. ring.
Qed.

Lemma Seeds_kernel_defined (x1 x2 : list R) :
  length x1 = 8%nat -> length x2 = 8%nat ->
  exists k, Seeds.kernel x1 x2 = Some k.
Proof.
  intros Hl1 Hl2.
  destruct (Seeds_slices_defined x1 Hl1) as (e1 & e2 & E1 & E2 & _).
  destruct (Seeds_slices_defined x2 Hl2) as (e1' & e2' & E1' & E2' & _).
  eexists. apply (Seeds_kernel_value x1 x2 e1 e2 e1' e2'); assumption.
Qed.

(** C1.  For every feature vector [x] with 8 real components,
    [kernel(x, x)] equals 1, and consequently every diagonal entry of
    [kernel_matrix(A, A)] equals 1 for every sequence [A] of such vectors
    (Seeds notebook, the two-qutrit variant). *)
Theorem kernel_self_is_one (x : list R) (A : list (list R)) :
  length x = 8%nat ->
  Forall (fun a => length a = 8%nat) A ->
  Seeds.kernel x x = Some 1 /\
  exists K,
    Seeds.kernel_matrix A A = Some K /\
    forall i, (i < length A)%nat ->
      exists row, nth_error K i = Some row /\ nth_error row i = Some 1.
Proof.
  intros Hx HA. split; [apply Seeds_kernel_self, Hx|].
  apply (kernel_matrix_diag Seeds.kernel 8 A).
  - exact Seeds_kernel_defined.
  - exact Seeds_kernel_self.
  - exact HA.
Qed.

Lemma kernel_self_is_one_witness :
  Seeds.kernel [1; 2; 3; 4; 5; 6; 7; 8] [1; 2; 3; 4; 5; 6; 7; 8] = Some 1 /\
  exists K,
    Seeds.kernel_matrix [[1; 2; 3; 4; 5; 6; 7; 8]; [8; 7; 6; 5; 4; 3; 2; 1]]
                        [[1; 2; 3; 4; 5; 6; 7; 8]; [8; 7; 6; 5; 4; 3; 2; 1]]
      = Some K /\
    forall i, (i < 2)%nat ->
      exists row, nth_error K i = Some row /\ nth_error row i = Some 1.
Proof.
  apply (kernel_self_is_one [1; 2; 3; 4; 5; 6; 7; 8]
           [[1; 2; 3; 4; 5; 6; 7; 8]; [8; 7; 6; 5; 4; 3; 2; 1]]).
  - reflexivity.
  - repeat constructor.
Defined.

Lemma two_qutrit_swap (e1 e2 e1' e2' : array) :
  unit_qutrit e1 -> unit_qutrit e2 -> unit_qutrit e1' -> unit_qutrit e2' ->
  Re ((inner e1' e1 * inner e2' e2) * (inner e1' e1 * inner e2' e2))
  = Re ((inner e1 e1' * inner e2 e2') * (inner e1 e1' * inner e2 e2')).
Proof.
  intros H1 H2 H1' H2'. apply Re_sqr_inner_swap.
  - rewrite (unit_qutrit_rows e1 H1), (unit_qutrit_rows e1' H1'). reflexivity.
  - rewrite (unit_qutrit_rows e2 H2), (unit_qutrit_rows e2' H2'). reflexivity.
Qed.

Lemma Seeds_kernel_sym (x1 x2 : list R) :
  Seeds.kernel x1 x2 = Seeds.kernel x2 x1.
Proof.
  destruct (Seeds.encoding (slice 0 4 x1)) as [e1|] eqn:E1;
  destruct (Seeds.encoding (slice_from 4 x1)) as [e2|] eqn:E2;
  destruct (Seeds.encoding (slice 0 4 x2)) as [e1'|] eqn:E1';
  destruct (Seeds.encoding (slice_from 4 x2)) as [e2'|] eqn:E2';
  [ rewrite (Seeds_kernel_value x1 x2 e1 e2 e1' e2' E1 E2 E1' E2'),
            (Seeds_kernel_value x2 x1 e1' e2' e1 e2 E1' E2' E1 E2);
    f_equal; symmetry; apply two_qutrit_swap;
    eapply Seeds_encoding_inv; eassumption
  | unfold Seeds.kernel; rewrite E1, E2, E1', E2'; reflexivity .. ].
Qed.

Lemma Glass_kernel_sym (x1 x2 : list R) :
  Glass.kernel x1 x2 = Glass.kernel x2 x1.
Proof.
  destruct (Glass.encoding (slice 0 4 x1)) as [e1|] eqn:E1;
  destruct (Glass.encoding (slice_from 4 x1)) as [e2|] eqn:E2;
  destruct (Glass.encoding (slice 0 4 x2)) as [e1'|] eqn:E1';
  destruct (Glass.encoding (slice_from 4 x2)) as [e2'|] eqn:E2';
  [ rewrite (Glass_kernel_value x1 x2 e1 e2 e1' e2' E1 E2 E1' E2'),
            (Glass_kernel_value x2 x1 e1' e2' e1 e2 E1' E2' E1 E2);
    f_equal; symmetry; apply two_qutrit_swap;
    eapply Glass_encoding_inv; eassumption
  | unfold Glass.kernel; rewrite E1, E2, E1', E2'; reflexivity .. ].
Qed.

Lemma Iris_kernel_sym (x1 x2 : list R) :
  Iris.kernel x1 x2 = Iris.kernel x2 x1.
Proof.
  destruct (Iris.encoding x1) as [e|] eqn:E;
  destruct (Iris.encoding x2) as [e'|] eqn:E';
  [ rewrite (Iris_kernel_value x1 x2 e e' E E'),
            (Iris_kernel_value x2 x1 e' e E' E);
    f_equal; symmetry; apply two_qutrit_swap;
    eapply Iris_encoding_inv; eassumption
  | unfold Iris.kernel; rewrite E, E'; reflexivity .. ].
Qed.

Lemma Wine_slices_defined (x : list R) :
  (12 <= length x)%nat ->
  exists e1 e2 e3,
    Wine.encoding (slice 0 4 x) = Some e1 /\
    Wine.encoding (slice 4 8 x) = Some e2 /\
    Wine.encoding (slice 8 12 x) = Some e3 /\
    unit_qutrit e1 /\ unit_qutrit e2 /\ unit_qutrit e3.
Proof.
  intros Hlen.
  destruct (Wine_encoding_unit (slice 0 4 x)) as (e1 & E1 & H1).
  { rewrite slice_length by lia. lia. }
  destruct (Wine_encoding_unit (slice 4 8 x)) as (e2 & E2 & H2).
  { rewrite slice_length by lia. lia. }
  destruct (Wine_encoding_unit (slice 8 12 x)) as (e3 & E3 & H3).
  { rewrite slice_length by lia. lia. }
  exists e1, e2, e3. tauto.
Qed.

Lemma Wine_kernel_sym (x1 x2 : list R) :
  (12 <= length x1)%nat -> (12 <= length x2)%nat ->
  Wine.kernel x1 x2 = Wine.kernel x2 x1.
Proof.
  intros Hl1 Hl2.
  destruct (Wine_slices_defined x1 Hl1)
    as (e1 & e2 & e3 & E1 & E2 & E3 & H1 & _).
  destruct (Wine_slices_defined x2 Hl2)
    as (e1' & e2' & e3' & E1' & E2' & E3' & H1' & _).
  rewrite (Wine_kernel_value x1 x2 e1 e2 e3 e1' E1 E2 E3 E1').
  rewrite (Wine_kernel_value x2 x1 e1' e2' e3' e1 E1' E2' E3' E1).
  f_equal. rewrite (inner_conj e1 e1').
  - symmetry. apply Re_sqr_conj.
  - rewrite (unit_qutrit_rows e1 H1), (unit_qutrit_rows e1' H1'). reflexivity.
Qed.

(** C3.  For every pair of feature vectors of the expected length,
    [kernel(x1, x2)] equals [kernel(x2, x1)], in each kernel variant: Seeds
    and Glass (8 features), Iris (4 features) and Wine (12 features).  In the
    first three the equality also holds when an encoding raises. *)
Theorem kernel_symmetric (x1 x2 : list R) :
  Seeds.kernel x1 x2 = Seeds.kernel x2 x1 /\
  Glass.kernel x1 x2 = Glass.kernel x2 x1 /\
  Iris.kernel x1 x2 = Iris.kernel x2 x1 /\
  ((12 <= length x1)%nat -> (12 <= length x2)%nat ->
   Wine.kernel x1 x2 = Wine.kernel x2 x1).
Proof.
  split; [apply Seeds_kernel_sym|].
  split; [apply Glass_kernel_sym|].
  split; [apply Iris_kernel_sym|].
  apply Wine_kernel_sym.
Qed.

Lemma kernel_symmetric_witness :
  Wine.kernel [1; 2; 3; 4; 5; 6; 7; 8; 9; 10; 11; 12]
              [12; 11; 10; 9; 8; 7; 6; 5; 4; 3; 2; 1]
  = Wine.kernel [12; 11; 10; 9; 8; 7; 6; 5; 4; 3; 2; 1]
                [1; 2; 3; 4; 5; 6; 7; 8; 9; 10; 11; 12].
Proof.
  apply (kernel_symmetric [1; 2; 3; 4; 5; 6; 7; 8; 9; 10; 11; 12]
                          [12; 11; 10; 9; 8; 7; 6; 5; 4; 3; 2; 1]);
    simpl; lia.
Defined.

(** [kernel(x, x) = 1] in the other notebooks. *)

Lemma Glass_slices_defined (x : list R) :
  length x = 8%nat ->
  exists e1 e2,
    Glass.encoding (slice 0 4 x) = Some e1 /\
    Glass.encoding (slice_from 4 x) = Some e2 /\
    unit_qutrit e1 /\ unit_qutrit e2.
Proof.
  intros Hlen.
  destruct (Glass_encoding_unit (slice 0 4 x)) as (e1 & E1 & H1).
  { rewrite slice_length by lia. lia. }
  destruct (Glass_encoding_unit (slice_from 4 x)) as (e2 & E2 & H2).
  { rewrite slice_from_length. lia. }
  exists e1, e2. tauto.
Qed.

Lemma Glass_kernel_self (x : list R) :
  length x = 8%nat -> Glass.kernel x x = Some 1.
Proof.
  intros Hlen.
  destruct (Glass_slices_defined x Hlen) as (e1 & e2 & E1 & E2 & H1 & H2).
  rewrite (Glass_kernel_value x x e1 e2 e1 e2 E1 E2 E1 E2).
  rewrite (unit_qutrit_inner e1 H1), (unit_qutrit_inner e2 H2).
  f_equal. simpl. ring.
Qed.

Lemma Iris_kernel_self (x : list R) :
  length x = 4%nat -> Iris.kernel x x = Some 1.
Proof.
  intros Hlen.
  destruct (Iris_encoding_unit x) as (e & E & He); [lia|].
  rewrite (Iris_kernel_value x x e e E E), (unit_qutrit_inner e He).
  f_equal. simpl. ring.
Qed.

Lemma Wine_kernel_self (x : list R) :
  length x = 12%nat -> Wine.kernel x x = Some 1.
Proof.
  intros Hlen.
  destruct (Wine_slices_defined x) as (e1 & e2 & e3 & E1 & E2 & E3 & H1 & _);
    [lia|].
  rewrite (Wine_kernel_value x x e1 e2 e3 e1 E1 E2 E3 E1).
  rewrite (unit_qutrit_inner e1 H1). f_equal. simpl. ring.
Qed.

Lemma Iris_encoding_prefix (x t : list R) :
  length x = 4%nat -> Iris.encoding (x ++ t) = Iris.encoding x.
Proof.
  intros Hlen.
  destruct x as [|a [|b [|c [|d [|? ?]]]]]; simpl in Hlen; try lia.
  unfold Iris.encoding. simpl app. rewrite !encoding_sum_low. reflexivity.
Qed.

(** C10.  In the Iris notebook, for every pair of 4-feature vectors,
    [kernel(x1, x2)] is the real part of the square of the inner product of
    E (enc(x1) (x) enc(x1)) and E (enc(x2) (x) enc(x2)), with
    E = exp(i LZZ2): each joint state is the Kronecker product of the
    encoding of the whole input with itself.  The input is not partitioned
    into chunks: features appended after the first four do not change the
    kernel. *)
Theorem iris_kernel_encodes_input_twice (x1 x2 : list R) :
  length x1 = 4%nat -> length x2 = 4%nat ->
  exists e1 e2,
    Iris.encoding x1 = Some e1 /\
    Iris.encoding x2 = Some e2 /\
    Iris.kernel x1 x2
    = Some (Re (inner (dot (expm (scal Ci LZZ2)) (kron e1 e1))
                      (dot (expm (scal Ci LZZ2)) (kron e2 e2))
                * inner (dot (expm (scal Ci LZZ2)) (kron e1 e1))
                        (dot (expm (scal Ci LZZ2)) (kron e2 e2)))) /\
    forall t1 t2, Iris.kernel (x1 ++ t1) (x2 ++ t2) = Iris.kernel x1 x2.
Proof.
  intros Hl1 Hl2.
  destruct (Iris_encoding_unit x1) as (e1 & E1 & H1); [lia|].
  destruct (Iris_encoding_unit x2) as (e2 & E2 & H2); [lia|].
  exists e1, e2. split; [exact E1|]. split; [exact E2|]. split.
  - unfold Iris.kernel. rewrite E1, E2. cbn [bind]. cbv zeta.
    destruct (kron_qutrits_shape e1 e1 H1 H1) as [_ Hc1].
    destruct (kron_qutrits_shape e2 e2 H2 H2) as [_ Hc2].
    apply overlap_value.
    + rewrite cols_dot; [exact Hc1|].
      rewrite entangler_eq, entangler_rows. lia.
    + rewrite cols_dot; [exact Hc2|].
      rewrite entangler_eq, entangler_rows. lia.
  - intros t1 t2. unfold Iris.kernel.
    rewrite (Iris_encoding_prefix x1 t1 Hl1), (Iris_encoding_prefix x2 t2 Hl2).
    reflexivity.
Qed.

Lemma iris_kernel_encodes_input_twice_witness :
  exists e1 e2,
    Iris.encoding [1; 2; 3; 4] = Some e1 /\
    Iris.encoding [4; 3; 2; 1] = Some e2 /\
    Iris.kernel [1; 2; 3; 4] [4; 3; 2; 1]
    = Some (Re (inner (dot (expm (scal Ci LZZ2)) (kron e1 e1))
                      (dot (expm (scal Ci LZZ2)) (kron e2 e2))
                * inner (dot (expm (scal Ci LZZ2)) (kron e1 e1))
                        (dot (expm (scal Ci LZZ2)) (kron e2 e2)))) /\
    forall t1 t2,
      Iris.kernel ([1; 2; 3; 4] ++ t1) ([4; 3; 2; 1] ++ t2)
      = Iris.kernel [1; 2; 3; 4] [4; 3; 2; 1].
Proof.
  apply (iris_kernel_encodes_input_twice [1; 2; 3; 4] [4; 3; 2; 1]);
    reflexivity.
Defined.

(** ** Inputs on which the kernels leave the specification *)

Lemma gen_sum_low_gm3 (t : R) :
  gen_sum_low 0 0 t 0 = diag_array (map (fun s => mkC 0 s) [t; - t; 0]).
Proof. unfold gen_sum_low. cbn; arr_eq; lca. Qed.

Lemma gen_sum_high_gm8 (t : R) :
  gen_sum_high 0 0 0 t =
  diag_array (map (fun s => mkC 0 s)
                  [t / sqrt 3; t / sqrt 3; - 2 * t / sqrt 3]).
Proof. unfold gen_sum_high. cbn; arr_eq; lca. Qed.

Lemma dot_diag3_q0 (z0 z1 z2 : C) :
  dot (diag_array [z0; z1; z2]) q0 = [[z0]; [C0]; [C0]].
Proof. cbn; arr_eq; destruct z0; lca. Qed.

(** Encoding a vector whose only non-zero feature multiplies a diagonal
    generator multiplies [q0] by a phase. *)
Lemma Seeds_encoding_gm3 (t : R) (rest : list R) :
  Seeds.encoding (0 :: 0 :: t :: 0 :: rest) = Some [[Cexp (mkC 0 t)]; [C0]; [C0]].
Proof.
  unfold Seeds.encoding. rewrite encoding_sum_low. cbn [bind].
  rewrite gen_sum_low_gm3, expm_diag. cbn [map]. rewrite dot_diag3_q0.
  reflexivity.
Qed.

Lemma Wine_encoding_gm8 (t : R) (rest : list R) :
  Wine.encoding (0 :: 0 :: 0 :: t :: rest)
  = Some [[Cexp (mkC 0 (t / sqrt 3))]; [C0]; [C0]].
Proof.
  unfold Wine.encoding. rewrite encoding_sum_high. cbn [bind].
  rewrite gen_sum_high_gm8, expm_diag. cbn [map]. rewrite dot_diag3_q0.
  reflexivity.
Qed.

Lemma inner_q0_phase (t : R) :
  inner q0 [[Cexp (mkC 0 t)]; [C0]; [C0]] = mkC (cos t) (sin t).
Proof.
  unfold inner, col, get, q0, Cexp. simpl. rewrite exp_0.
  apply C_eq; simpl; ring.
Qed.

Lemma Re_sqr_phase (t : R) :
  Re (mkC (cos t) (sin t) * mkC (cos t) (sin t)) = cos (2 * t).
Proof. simpl. rewrite cos_2a. ring. Qed.

Lemma Seeds_kernel_phase (t : R) :
  Seeds.kernel (zero_vector 8) [0; 0; t; 0; 0; 0; 0; 0] = Some (cos (2 * t)).
Proof.
  destruct (encoding_zeros []) as (Ez & _).
  rewrite (Seeds_kernel_value (zero_vector 8) [0; 0; t; 0; 0; 0; 0; 0]
             q0 q0 [[Cexp (mkC 0 t)]; [C0]; [C0]] q0).
  - rewrite inner_q0_phase, (unit_qutrit_inner q0 unit_qutrit_q0).
    rewrite Cmult_1_r, Re_sqr_phase. reflexivity.
  - exact Ez.
  - exact Ez.
  - apply (Seeds_encoding_gm3 t []).
  - exact Ez.
Qed.

Lemma cos_3_neg : cos 3 < 0.
Proof.
  generalize PI_4 PI2_1. intros H4 H1.
  apply cos_lt_0; lra.
Qed.

(** C2 (fails on the code).  The value returned by [kernel] is
    [np.real(c**2)], not the squared modulus of [c]: on the Seeds inputs
    x1 = 0 and x2 = (0, 0, 3/2, 0, 0, 0, 0, 0) the kernel returns cos 3,
    which is negative, hence outside [0, 1]. *)
Theorem kernel_can_be_negative :
  Seeds.kernel (zero_vector 8) [0; 0; 3 / 2; 0; 0; 0; 0; 0] = Some (cos 3)
  /\ cos 3 < 0.
Proof.
  split; [|exact cos_3_neg].
  rewrite Seeds_kernel_phase. do 2 f_equal. field.
Qed.

(** The Wine kernel reads only the first four features of its second
    argument. *)
Lemma Wine_kernel_reads_x2_prefix (x1 x2 : list R) :
  Wine.kernel x1 x2 = Wine.kernel x1 (slice 0 4 x2).
Proof.
  unfold Wine.kernel, slice. cbn [skipn Nat.sub].
  rewrite firstn_firstn. reflexivity.
Qed.

Lemma sqrt3_lt_PI : sqrt 3 < PI.
Proof. generalize sqrt3_sqr sqrt3_pos PI2_1. intros Hs Hp H1. nra. Qed.

Lemma cos_sqrt3_lt_1 : cos (sqrt 3) < 1.
Proof.
  rewrite <- cos_0. generalize sqrt3_pos sqrt3_lt_PI PI_RGT_0. intros Hp Hl H0.
  apply cos_decreasing_1; lra.
Qed.

Lemma Wine_kernel_as_specified_phase (t : R) :
  Wine_kernel_as_specified (zero_vector 12)
    [0; 0; 0; 0; 0; 0; 0; t; 0; 0; 0; 0]
  = Some (cos (2 * (t / sqrt 3))).
Proof.
  destruct (encoding_zeros []) as (_ & _ & _ & Ez).
  assert (Et := Wine_encoding_gm8 t []).
  unfold Wine_kernel_as_specified.
  cbn [slice skipn firstn Nat.sub zero_vector repeat].
  rewrite Ez, Et. cbn [bind]. cbv zeta.
  assert (Hq := unit_qutrit_q0).
  assert (Hp := Wine_encoding_inv _ _ Et).
  destruct (inner_kron3_qutrits q0 q0 q0 q0 _ q0 Hq Hq Hq Hq Hp Hq)
    as (_ & _ & ->).
  rewrite inner_q0_phase, (unit_qutrit_inner q0 Hq).
  rewrite Cmult_1_l, Cmult_1_r, Re_sqr_phase. reflexivity.
Qed.

(** C4 (fails on the code, Wine notebook).  The second joint state of the
    Wine kernel takes its second and third chunks from [x1], not from [x2].
    On x1 = 0 and x2 = (0,0,0,0, 0,0,0,3/2, 0,0,0,0) the notebook's kernel
    returns 1, while the kernel built as specified, with every chunk of the
    second state taken from [x2], returns cos (sqrt 3), which is below 1. *)
Theorem wine_kernel_second_state_uses_x1 :
  Wine.kernel (zero_vector 12) [0; 0; 0; 0; 0; 0; 0; 3 / 2; 0; 0; 0; 0]
    = Some 1 /\
  Wine_kernel_as_specified (zero_vector 12)
    [0; 0; 0; 0; 0; 0; 0; 3 / 2; 0; 0; 0; 0] = Some (cos (sqrt 3)) /\
  cos (sqrt 3) < 1.
Proof.
  split; [|split; [|exact cos_sqrt3_lt_1]].
  - destruct (encoding_zeros []) as (_ & _ & _ & Ez).
    rewrite (Wine_kernel_value (zero_vector 12)
               [0; 0; 0; 0; 0; 0; 0; 3 / 2; 0; 0; 0; 0] q0 q0 q0 q0);
      try exact Ez.
    rewrite (unit_qutrit_inner q0 unit_qutrit_q0). f_equal. simpl. ring.
  - rewrite Wine_kernel_as_specified_phase. do 2 f_equal.
    generalize sqrt3_sqr sqrt3_neq_0. intros Hs Hn.
    apply (Rmult_eq_reg_r (sqrt 3)); [|exact Hn].
    field_simplify; [|exact Hn]. nra.
Qed.

(** ** The range of the two-qutrit kernel *)

Lemma Re_sqr_bound (c : C) : - Cnorm2 c <= Re (c * c) <= Cnorm2 c.
Proof. unfold Cnorm2. simpl. nra. Qed.

Lemma Cnorm2_mult (a b : C) : Cnorm2 (a * b) = Cnorm2 a * Cnorm2 b.
Proof. unfold Cnorm2. simpl. ring. Qed.

(** Lagrange's identity in dimension 3. *)
Lemma lagrange3 (u0 u1 u2 v0 v1 v2 : C) :
  (Cnorm2 u0 + Cnorm2 u1 + Cnorm2 u2) * (Cnorm2 v0 + Cnorm2 v1 + Cnorm2 v2)
  - Cnorm2 (C0 + Cconj u0 * v0 + Cconj u1 * v1 + Cconj u2 * v2)
  = Cnorm2 (u0 * v1 - u1 * v0) + Cnorm2 (u0 * v2 - u2 * v0)
    + Cnorm2 (u1 * v2 - u2 * v1).
Proof. unfold Cnorm2. simpl. ring. Qed.

(** The Cauchy-Schwarz inequality for normalised qutrits. *)
Lemma cauchy_schwarz_qutrit (u v : array) :
  unit_qutrit u -> unit_qutrit v -> Cnorm2 (inner u v) <= 1.
Proof.
  intros (u0 & u1 & u2 & -> & Hu) (v0 & v1 & v2 & -> & Hv).
  unfold inner, col, get. cbn [rows length Csum nth].
  generalize (lagrange3 u0 u1 u2 v0 v1 v2). rewrite Hu, Hv.
  generalize (Cnorm2_nonneg (u0 * v1 - u1 * v0))
             (Cnorm2_nonneg (u0 * v2 - u2 * v0))
             (Cnorm2_nonneg (u1 * v2 - u2 * v1)).
  lra.
Qed.

(** What the Seeds kernel does guarantee: a value in [-1, 1]. *)
Lemma Seeds_kernel_range (x1 x2 : list R) (k : R) :
  Seeds.kernel x1 x2 = Some k -> -1 <= k <= 1.
Proof.
  destruct (Seeds.encoding (slice 0 4 x1)) as [e1|] eqn:E1;
  destruct (Seeds.encoding (slice_from 4 x1)) as [e2|] eqn:E2;
  destruct (Seeds.encoding (slice 0 4 x2)) as [e1'|] eqn:E1';
  destruct (Seeds.encoding (slice_from 4 x2)) as [e2'|] eqn:E2';
  [ rewrite (Seeds_kernel_value x1 x2 e1 e2 e1' e2' E1 E2 E1' E2')
  | unfold Seeds.kernel; rewrite E1, E2, E1', E2'; discriminate .. ].
  intros Hk.
  assert (Ek : k = Re ((inner e1 e1' * inner e2 e2')
                       * (inner e1 e1' * inner e2 e2'))) by congruence.
  rewrite Ek. clear Hk Ek k.
  assert (H1 := Seeds_encoding_inv _ _ E1).
  assert (H2 := Seeds_encoding_inv _ _ E2).
  assert (H1' := Seeds_encoding_inv _ _ E1').
  assert (H2' := Seeds_encoding_inv _ _ E2').
  generalize (Re_sqr_bound (inner e1 e1' * inner e2 e2')).
  rewrite Cnorm2_mult.
  generalize (cauchy_schwarz_qutrit e1 e1' H1 H1')
             (cauchy_schwarz_qutrit e2 e2' H2 H2')
             (Cnorm2_nonneg (inner e1 e1')) (Cnorm2_nonneg (inner e2 e2')).
  generalize (Cnorm2 (inner e1 e1')) (Cnorm2 (inner e2 e2'))
             (Re (inner e1 e1' * inner e2 e2' * (inner e1 e1' * inner e2 e2'))).
  intros A B X HA HB HA0 HB0 HX.
  assert (A * B <= 1) by nra. lra.
Qed.

(** The Seeds kernel does build both joint states as specified: chunks of
    [x1] for the first, chunks of [x2] for the second, each entangled. *)
Lemma Seeds_kernel_as_specified (x1 x2 : list R) :
  length x1 = 8%nat -> length x2 = 8%nat ->
  exists e1 e2 e1' e2',
    Seeds.encoding (slice 0 4 x1) = Some e1 /\
    Seeds.encoding (slice_from 4 x1) = Some e2 /\
    Seeds.encoding (slice 0 4 x2) = Some e1' /\
    Seeds.encoding (slice_from 4 x2) = Some e2' /\
    Seeds.kernel x1 x2
    = Some (Re (inner (dot (expm (scal Ci LZZ2)) (kron e1 e2))
                      (dot (expm (scal Ci LZZ2)) (kron e1' e2'))
                * inner (dot (expm (scal Ci LZZ2)) (kron e1 e2))
                        (dot (expm (scal Ci LZZ2)) (kron e1' e2')))).
Proof.
  intros Hl1 Hl2.
  destruct (Seeds_slices_defined x1 Hl1) as (e1 & e2 & E1 & E2 & H1 & H2).
  destruct (Seeds_slices_defined x2 Hl2) as (e1' & e2' & E1' & E2' & H1' & H2').
  exists e1, e2, e1', e2'. repeat (split; [assumption|]).
  rewrite (Seeds_kernel_value x1 x2 e1 e2 e1' e2' E1 E2 E1' E2').
  rewrite entangled_inner by assumption. reflexivity.
Qed.

(** * Part IV: further properties of the notebooks' functions *)

(** ** [kernel_matrix] *)

Lemma mapM_length {X Y : Type} (f : X -> option Y) (l : list X) (ys : list Y) :
  mapM f l = Some ys -> length ys = length l.
Proof.
  revert ys. induction l as [|x l IH]; intros ys Hm; simpl in Hm.
  - injection Hm as <-. reflexivity.
  - destruct (f x) as [y|]; [|discriminate]. simpl in Hm.
    destruct (mapM f l) as [ys'|]; [|discriminate]. simpl in Hm.
    injection Hm as <-. simpl. f_equal. apply IH. reflexivity.
Qed.

Lemma mapM_None {X Y : Type} (f : X -> option Y) (l : list X) :
  mapM f l = None <-> exists x, In x l /\ f x = None.
Proof.
  induction l as [|x l IH]; simpl.
  - split; [discriminate|intros (x & [] & _)].
  - destruct (f x) as [y|] eqn:Ex; simpl.
    + destruct (mapM f l) as [ys|]; simpl.
      * split; [discriminate|].
        intros (z & [<-|Hz] & Ez); [congruence|].
        assert (Hn : Some ys = None) by (apply IH; exists z; tauto).
        discriminate Hn.
      * split; [|reflexivity]. intros _.
        destruct (proj1 IH eq_refl) as (z & Hz & Ez).
        exists z. tauto.
    + split; [|reflexivity]. intros _. exists x. tauto.
Qed.

(** X1.  When [kernel_matrix(A, B)] returns, the result has one row per
    element of [A], every row has one entry per element of [B], and the entry
    at [(i, j)] is [kernel(A[i], B[j])]. *)
Theorem kernel_matrix_entries (kernel : list R -> list R -> option R)
    (A B : list (list R)) (K : list (list R)) :
  kernel_matrix_of kernel A B = Some K ->
  length K = length A /\
  Forall (fun row => length row = length B) K /\
  forall i j a b,
    nth_error A i = Some a -> nth_error B j = Some b ->
    entry K i j = kernel a b /\ exists k, kernel a b = Some k.
Proof.
  intros HK. unfold kernel_matrix_of in HK.
  split; [apply (mapM_length _ A K HK)|]. split.
  - apply Forall_forall. intros row Hrow.
    apply In_nth_error in Hrow. destruct Hrow as [i Hi].
    assert (Hlt : (i < length A)%nat).
    { rewrite <- (mapM_length _ A K HK). apply nth_error_Some. congruence. }
    destruct (nth_error A i) as [a|] eqn:Ea;
      [|apply nth_error_None in Ea; lia].
    destruct (mapM_nth_error _ A K i a HK Ea) as (row' & Hrow' & Hm).
    assert (row' = row) by congruence. subst row'.
    apply (mapM_length _ B row Hm).
  - intros i j a b Ea Eb.
    destruct (mapM_nth_error _ A K i a HK Ea) as (row & Hrow & Hm).
    destruct (mapM_nth_error _ B row j b Hm Eb) as (k & Hk & Hkab).
    unfold entry. rewrite Hrow. cbn [bind]. rewrite Hk, Hkab.
    split; [reflexivity|exists k; reflexivity].
Qed.

Lemma kernel_matrix_entries_witness :
  length [[1]] = length [zero_vector 8] /\
  Forall (fun row : list R => length row = length [zero_vector 8]) [[1]] /\
  forall i j a b,
    nth_error [zero_vector 8] i = Some a ->
    nth_error [zero_vector 8] j = Some b ->
    entry [[1]] i j = Seeds.kernel a b /\
    exists k, Seeds.kernel a b = Some k.
Proof.
  apply (kernel_matrix_entries Seeds.kernel
           [zero_vector 8] [zero_vector 8] [[1]]).
  unfold kernel_matrix_of. cbn [mapM].
  rewrite (Seeds_kernel_self (zero_vector 8) eq_refl). reflexivity.
Defined.

(** X2.  [kernel_matrix(A, B)] raises exactly when [kernel(a, b)] raises for
    some [a] in [A] and [b] in [B]; in particular it returns for an empty
    [A] or an empty [B], whatever the other argument holds. *)
Theorem kernel_matrix_raises_iff (kernel : list R -> list R -> option R)
    (A B : list (list R)) :
  kernel_matrix_of kernel A B = None <->
  exists a b, In a A /\ In b B /\ kernel a b = None.
Proof.
  unfold kernel_matrix_of. rewrite mapM_None. split.
  - intros (a & Ha & Hm). apply mapM_None in Hm.
    destruct Hm as (b & Hb & Hk). exists a, b. tauto.
  - intros (a & b & Ha & Hb & Hk). exists a. split; [exact Ha|].
    apply mapM_None. exists b. tauto.
Qed.

(** ** Which features [encoding] and the kernels read *)

Lemma encoding_sum_prefix (offset : nat) (v : list R) :
  encoding_sum offset (slice 0 4 v) = encoding_sum offset v.
Proof.
  unfold slice. cbn [skipn Nat.sub].
  destruct v as [|a [|b [|c [|d rest]]]]; reflexivity.
Qed.

(** X3.  [encoding] reads exactly the first four components of its
    argument: it returns the same state for [vector] and for [vector[:4]],
    in each notebook (features after the fourth are ignored; both raise when
    there are fewer than four). *)
Theorem encoding_reads_first_four (v : list R) :
  Seeds.encoding (slice 0 4 v) = Seeds.encoding v /\
  Glass.encoding (slice 0 4 v) = Glass.encoding v /\
  Iris.encoding (slice 0 4 v) = Iris.encoding v /\
  Wine.encoding (slice 0 4 v) = Wine.encoding v.
Proof.
  unfold Seeds.encoding, Glass.encoding, Iris.encoding, Wine.encoding.
  rewrite !encoding_sum_prefix. repeat split; reflexivity.
Qed.

Lemma Seeds_encoding_prefix (v : list R) :
  Seeds.encoding (slice 0 4 v) = Seeds.encoding v.
Proof. unfold Seeds.encoding. rewrite encoding_sum_prefix. reflexivity. Qed.

Lemma Glass_encoding_prefix (v : list R) :
  Glass.encoding (slice 0 4 v) = Glass.encoding v.
Proof. unfold Glass.encoding. rewrite encoding_sum_prefix. reflexivity. Qed.

Lemma Wine_encoding_prefix (v : list R) :
  Wine.encoding (slice 0 4 v) = Wine.encoding v.
Proof. unfold Wine.encoding. rewrite encoding_sum_prefix. reflexivity. Qed.

Lemma Seeds_encoding_short (v : list R) :
  (length v < 4)%nat -> Seeds.encoding v = None.
Proof.
  intros H. unfold Seeds.encoding. rewrite encoding_sum_short by exact H.
  reflexivity.
Qed.

Lemma Glass_encoding_short (v : list R) :
  (length v < 4)%nat -> Glass.encoding v = None.
Proof.
  intros H. unfold Glass.encoding. rewrite encoding_sum_short by exact H.
  reflexivity.
Qed.

Lemma Wine_encoding_short (v : list R) :
  (length v < 4)%nat -> Wine.encoding v = None.
Proof.
  intros H. unfold Wine.encoding. rewrite encoding_sum_short by exact H.
  reflexivity.
Qed.

Lemma Seeds_kernel_short (x1 x2 : list R) :
  (length x1 < 8)%nat \/ (length x2 < 8)%nat -> Seeds.kernel x1 x2 = None.
Proof.
  intros [H|H]; unfold Seeds.kernel.
  - rewrite (Seeds_encoding_short (slice_from 4 x1))
      by (rewrite slice_from_length; lia).
    destruct (Seeds.encoding (slice 0 4 x1)); reflexivity.
  - rewrite (Seeds_encoding_short (slice_from 4 x2))
      by (rewrite slice_from_length; lia).
    destruct (Seeds.encoding (slice 0 4 x1)); [|reflexivity].
    destruct (Seeds.encoding (slice_from 4 x1)); [|reflexivity].
    destruct (Seeds.encoding (slice 0 4 x2)); reflexivity.
Qed.

Lemma Glass_kernel_short (x1 x2 : list R) :
  (length x1 < 8)%nat \/ (length x2 < 8)%nat -> Glass.kernel x1 x2 = None.
Proof.
  intros [H|H]; unfold Glass.kernel.
  - rewrite (Glass_encoding_short (slice_from 4 x1))
      by (rewrite slice_from_length; lia).
    destruct (Glass.encoding (slice 0 4 x1)); reflexivity.
  - rewrite (Glass_encoding_short (slice_from 4 x2))
      by (rewrite slice_from_length; lia).
    destruct (Glass.encoding (slice 0 4 x1)); [|reflexivity].
    destruct (Glass.encoding (slice_from 4 x1)); [|reflexivity].
    destruct (Glass.encoding (slice 0 4 x2)); reflexivity.
Qed.

Lemma Iris_kernel_short (x1 x2 : list R) :
  (length x1 < 4)%nat \/ (length x2 < 4)%nat -> Iris.kernel x1 x2 = None.
Proof.
  intros [H|H]; unfold Iris.kernel.
  - rewrite (Glass_encoding_short x1 H : Iris.encoding x1 = None).
    reflexivity.
  - rewrite (Glass_encoding_short x2 H : Iris.encoding x2 = None).
    destruct (Iris.encoding x1); reflexivity.
Qed.

Lemma Wine_kernel_short (x1 x2 : list R) :
  (length x1 < 12)%nat \/ (length x2 < 4)%nat -> Wine.kernel x1 x2 = None.
Proof.
  intros [H|H]; unfold Wine.kernel.
  - rewrite (Wine_encoding_short (slice 8 12 x1))
      by (unfold slice; rewrite length_firstn, length_skipn; lia).
    destruct (Wine.encoding (slice 0 4 x1)); [|reflexivity].
    destruct (Wine.encoding (slice 4 8 x1)); reflexivity.
  - rewrite (Wine_encoding_short (slice 0 4 x2))
      by (unfold slice; rewrite length_firstn, length_skipn; lia).
    destruct (Wine.encoding (slice 0 4 x1)); [|reflexivity].
    destruct (Wine.encoding (slice 4 8 x1)); [|reflexivity].
    destruct (Wine.encoding (slice 8 12 x1)); reflexivity.
Qed.

(** The encoded chunks of a vector with at least 8 features. *)
Lemma Seeds_chunks (x : list R) :
  (8 <= length x)%nat ->
  exists e1 e2,
    Seeds.encoding (slice 0 4 x) = Some e1 /\
    Seeds.encoding (slice_from 4 x) = Some e2 /\
    unit_qutrit e1 /\ unit_qutrit e2.
Proof.
  intros Hlen.
  destruct (Seeds_encoding_unit (slice 0 4 x)) as (e1 & E1 & H1).
  { rewrite slice_length by lia. lia. }
  destruct (Seeds_encoding_unit (slice_from 4 x)) as (e2 & E2 & H2).
  { rewrite slice_from_length. lia. }
  exists e1, e2. tauto.
Qed.

Lemma Glass_chunks (x : list R) :
  (8 <= length x)%nat ->
  exists e1 e2,
    Glass.encoding (slice 0 4 x) = Some e1 /\
    Glass.encoding (slice_from 4 x) = Some e2 /\
    unit_qutrit e1 /\ unit_qutrit e2.
Proof.
  intros Hlen.
  destruct (Glass_encoding_unit (slice 0 4 x)) as (e1 & E1 & H1).
  { rewrite slice_length by lia. lia. }
  destruct (Glass_encoding_unit (slice_from 4 x)) as (e2 & E2 & H2).
  { rewrite slice_from_length. lia. }
  exists e1, e2. tauto.
Qed.

(** X4.  The two-qutrit kernels of the Seeds and Glass notebooks return a
    value exactly when both arguments have at least 8 features ([x[4:]] must
    hold 4 of them), and the Iris kernel exactly when both have at least 4;
    otherwise they raise. *)
Theorem kernel_defined_iff (x1 x2 : list R) :
  ((exists k, Seeds.kernel x1 x2 = Some k)
   <-> (8 <= length x1)%nat /\ (8 <= length x2)%nat) /\
  ((exists k, Glass.kernel x1 x2 = Some k)
   <-> (8 <= length x1)%nat /\ (8 <= length x2)%nat) /\
  ((exists k, Iris.kernel x1 x2 = Some k)
   <-> (4 <= length x1)%nat /\ (4 <= length x2)%nat).
Proof.
  split; [|split]; split.
  - intros [k Hk].
    destruct (le_lt_dec 8 (length x1)) as [H1|H1];
      [destruct (le_lt_dec 8 (length x2)) as [H2|H2]; [tauto|]|];
      rewrite Seeds_kernel_short in Hk by tauto; discriminate.
  - intros [H1 H2].
    destruct (Seeds_chunks x1 H1) as (e1 & e2 & E1 & E2 & _).
    destruct (Seeds_chunks x2 H2) as (e1' & e2' & E1' & E2' & _).
    eexists. apply (Seeds_kernel_value x1 x2 e1 e2 e1' e2'); assumption.
  - intros [k Hk].
    destruct (le_lt_dec 8 (length x1)) as [H1|H1];
      [destruct (le_lt_dec 8 (length x2)) as [H2|H2]; [tauto|]|];
      rewrite Glass_kernel_short in Hk by tauto; discriminate.
  - intros [H1 H2].
    destruct (Glass_chunks x1 H1) as (e1 & e2 & E1 & E2 & _).
    destruct (Glass_chunks x2 H2) as (e1' & e2' & E1' & E2' & _).
    eexists. apply (Glass_kernel_value x1 x2 e1 e2 e1' e2'); assumption.
  - intros [k Hk].
    destruct (le_lt_dec 4 (length x1)) as [H1|H1];
      [destruct (le_lt_dec 4 (length x2)) as [H2|H2]; [tauto|]|];
      rewrite Iris_kernel_short in Hk by tauto; discriminate.
  - intros [H1 H2].
    destruct (Iris_encoding_unit x1 H1) as (e & E & _).
    destruct (Iris_encoding_unit x2 H2) as (e' & E' & _).
    eexists. apply (Iris_kernel_value x1 x2 e e'); assumption.
Qed.

(** X5.  The Wine kernel returns a value exactly when its first argument
    has at least 12 features and its second at least 4: the second argument
    is only read through [x2[:4]]. *)
Theorem wine_kernel_defined_iff (x1 x2 : list R) :
  (exists k, Wine.kernel x1 x2 = Some k)
  <-> (12 <= length x1)%nat /\ (4 <= length x2)%nat.
Proof.
  split.
  - intros [k Hk].
    destruct (le_lt_dec 12 (length x1)) as [H1|H1];
      [destruct (le_lt_dec 4 (length x2)) as [H2|H2]; [tauto|]|];
      rewrite Wine_kernel_short in Hk by tauto; discriminate.
  - intros [H1 H2].
    destruct (Wine_slices_defined x1 H1) as (e1 & e2 & e3 & E1 & E2 & E3 & _).
    destruct (Wine_encoding_unit (slice 0 4 x2)) as (e1' & E1' & _).
    { rewrite slice_length by lia. lia. }
    eexists. apply (Wine_kernel_value x1 x2 e1 e2 e3 e1'); assumption.
Qed.

(** X6.  The kernels read a bounded prefix of their arguments: the Seeds and
    Glass kernels only the first 8 features of each vector, the Iris kernel
    only the first 4; whatever follows does not change the result. *)
Theorem kernel_reads_prefix (x1 x2 : list R) :
  Seeds.kernel (slice 0 8 x1) (slice 0 8 x2) = Seeds.kernel x1 x2 /\
  Glass.kernel (slice 0 8 x1) (slice 0 8 x2) = Glass.kernel x1 x2 /\
  Iris.kernel (slice 0 4 x1) (slice 0 4 x2) = Iris.kernel x1 x2.
Proof.
  assert (Hhead : forall x : list R, slice 0 4 (slice 0 8 x) = slice 0 4 x).
  { intros x. unfold slice. cbn [skipn Nat.sub]. apply firstn_firstn. }
  assert (Htail : forall x : list R,
            slice 0 4 (slice_from 4 (slice 0 8 x))
            = slice 0 4 (slice_from 4 x)).
  { intros x. unfold slice, slice_from.
    change (skipn 0 (skipn 4 (firstn (8 - 0) (skipn 0 x))))
      with (skipn 4 (firstn 8 x)).
    change (skipn 0 (skipn 4 x)) with (skipn 4 x).
    rewrite (skipn_firstn_comm 4 8 x).
    change (4 - 0)%nat with 4%nat. change (8 - 4)%nat with 4%nat.
    apply firstn_firstn. }
  split; [|split].
  - unfold Seeds.kernel.
    rewrite !Hhead.
    rewrite <- (Seeds_encoding_prefix (slice_from 4 (slice 0 8 x1))).
    rewrite <- (Seeds_encoding_prefix (slice_from 4 (slice 0 8 x2))).
    rewrite !Htail, !Seeds_encoding_prefix. reflexivity.
  - unfold Glass.kernel.
    rewrite !Hhead.
    rewrite <- (Glass_encoding_prefix (slice_from 4 (slice 0 8 x1))).
    rewrite <- (Glass_encoding_prefix (slice_from 4 (slice 0 8 x2))).
    rewrite !Htail, !Glass_encoding_prefix. reflexivity.
  - unfold Iris.kernel.
    rewrite (Glass_encoding_prefix x1 : Iris.encoding (slice 0 4 x1) = _).
    rewrite (Glass_encoding_prefix x2 : Iris.encoding (slice 0 4 x2) = _).
    reflexivity.
Qed.

(** ** Kernel values in terms of single-qutrit overlaps *)

Lemma plain_overlap (e1 e2 e1' e2' : array) :
  unit_qutrit e1 -> unit_qutrit e2 -> unit_qutrit e1' -> unit_qutrit e2' ->
  item00 (real (square (dot (transpose (arr_conj (kron e1 e2)))
                            (kron e1' e2'))))
  = Some (Re ((inner e1 e1' * inner e2 e2') * (inner e1 e1' * inner e2 e2'))).
Proof.
  intros H1 H2 H1' H2'.
  destruct (kron_qutrits_shape e1 e2 H1 H2) as [_ Hc].
  destruct (kron_qutrits_shape e1' e2' H1' H2') as [_ Hc'].
  rewrite (overlap_value _ _ Hc Hc').
  rewrite inner_kron_qutrits by assumption. reflexivity.
Qed.

(** X7.  In the Seeds and Glass notebooks the entangling gate has no effect
    on the kernel: for vectors with at least 8 features, [kernel(x1, x2)] is
    the real part of the square of the product of the two single-qutrit
    overlaps, which is also what the same expression gives with the gate
    left out. *)
Theorem entangling_gate_cancels (x1 x2 : list R) :
  (8 <= length x1)%nat -> (8 <= length x2)%nat ->
  (exists e1 e2 e1' e2',
     Seeds.encoding (slice 0 4 x1) = Some e1 /\
     Seeds.encoding (slice_from 4 x1) = Some e2 /\
     Seeds.encoding (slice 0 4 x2) = Some e1' /\
     Seeds.encoding (slice_from 4 x2) = Some e2' /\
     Seeds.kernel x1 x2
     = Some (Re ((inner e1 e1' * inner e2 e2')
                 * (inner e1 e1' * inner e2 e2'))) /\
     Seeds.kernel x1 x2
     = item00 (real (square (dot (transpose (arr_conj (kron e1 e2)))
                                 (kron e1' e2'))))) /\
  (exists e1 e2 e1' e2',
     Glass.encoding (slice 0 4 x1) = Some e1 /\
     Glass.encoding (slice_from 4 x1) = Some e2 /\
     Glass.encoding (slice 0 4 x2) = Some e1' /\
     Glass.encoding (slice_from 4 x2) = Some e2' /\
     Glass.kernel x1 x2
     = Some (Re ((inner e1 e1' * inner e2 e2')
                 * (inner e1 e1' * inner e2 e2'))) /\
     Glass.kernel x1 x2
     = item00 (real (square (dot (transpose (arr_conj (kron e1 e2)))
                                 (kron e1' e2'))))).
Proof.
  intros Hl1 Hl2. split.
  - destruct (Seeds_chunks x1 Hl1) as (e1 & e2 & E1 & E2 & H1 & H2).
    destruct (Seeds_chunks x2 Hl2) as (e1' & e2' & E1' & E2' & H1' & H2').
    exists e1, e2, e1', e2'. repeat (split; [assumption|]).
    rewrite plain_overlap by assumption.
    split; apply (Seeds_kernel_value x1 x2 e1 e2 e1' e2'); assumption.
  - destruct (Glass_chunks x1 Hl1) as (e1 & e2 & E1 & E2 & H1 & H2).
    destruct (Glass_chunks x2 Hl2) as (e1' & e2' & E1' & E2' & H1' & H2').
    exists e1, e2, e1', e2'. repeat (split; [assumption|]).
    rewrite plain_overlap by assumption.
    split; apply (Glass_kernel_value x1 x2 e1 e2 e1' e2'); assumption.
Qed.

Lemma entangling_gate_cancels_witness :
  exists e1 e2 e1' e2',
    Seeds.encoding (slice 0 4 [1; 2; 3; 4; 5; 6; 7; 8]) = Some e1 /\
    Seeds.encoding (slice_from 4 [1; 2; 3; 4; 5; 6; 7; 8]) = Some e2 /\
    Seeds.encoding (slice 0 4 [8; 7; 6; 5; 4; 3; 2; 1]) = Some e1' /\
    Seeds.encoding (slice_from 4 [8; 7; 6; 5; 4; 3; 2; 1]) = Some e2' /\
    Seeds.kernel [1; 2; 3; 4; 5; 6; 7; 8] [8; 7; 6; 5; 4; 3; 2; 1]
    = Some (Re ((inner e1 e1' * inner e2 e2')
                * (inner e1 e1' * inner e2 e2'))) /\
    Seeds.kernel [1; 2; 3; 4; 5; 6; 7; 8] [8; 7; 6; 5; 4; 3; 2; 1]
    = item00 (real (square (dot (transpose (arr_conj (kron e1 e2)))
                                (kron e1' e2')))).
Proof.
  apply (entangling_gate_cancels [1; 2; 3; 4; 5; 6; 7; 8]
                                 [8; 7; 6; 5; 4; 3; 2; 1]);
    simpl; lia.
Defined.

(** X8.  In the Iris notebook, for vectors with at least 4 features,
    [kernel(x1, x2)] is the real part of the fourth power of the overlap of
    the two encoded qutrits: encoding the input twice squares the overlap,
    and the entangling gate cancels. *)
Theorem iris_kernel_is_fourth_power (x1 x2 : list R) :
  (4 <= length x1)%nat -> (4 <= length x2)%nat ->
  exists e e',
    Iris.encoding x1 = Some e /\ Iris.encoding x2 = Some e' /\
    Iris.kernel x1 x2
    = Some (Re ((inner e e' * inner e e') * (inner e e' * inner e e'))).
Proof.
  intros Hl1 Hl2.
  destruct (Iris_encoding_unit x1 Hl1) as (e & E & _).
  destruct (Iris_encoding_unit x2 Hl2) as (e' & E' & _).
  exists e, e'. split; [exact E|]. split; [exact E'|].
  apply Iris_kernel_value; assumption.
Qed.

Lemma iris_kernel_is_fourth_power_witness :
  exists e e',
    Iris.encoding [1; 2; 3; 4] = Some e /\
    Iris.encoding [4; 3; 2; 1] = Some e' /\
    Iris.kernel [1; 2; 3; 4] [4; 3; 2; 1]
    = Some (Re ((inner e e' * inner e e') * (inner e e' * inner e e'))).
Proof.
  apply (iris_kernel_is_fourth_power [1; 2; 3; 4] [4; 3; 2; 1]); simpl; lia.
Defined.

(** X9.  The Wine kernel is a function of the first four features of each
    argument only: for [x1] with at least 12 features and [x2] with at least
    4, [kernel(x1, x2)] is the real part of the square of the overlap of
    [encoding(x1[:4])] and [encoding(x2[:4])]. *)
Theorem wine_kernel_first_chunk_only (x1 x2 : list R) :
  (12 <= length x1)%nat -> (4 <= length x2)%nat ->
  exists e e',
    Wine.encoding (slice 0 4 x1) = Some e /\
    Wine.encoding (slice 0 4 x2) = Some e' /\
    Wine.kernel x1 x2 = Some (Re (inner e e' * inner e e')).
Proof.
  intros Hl1 Hl2.
  destruct (Wine_slices_defined x1 Hl1) as (e1 & e2 & e3 & E1 & E2 & E3 & _).
  destruct (Wine_encoding_unit (slice 0 4 x2)) as (e1' & E1' & _).
  { rewrite slice_length by lia. lia. }
  exists e1, e1'. split; [exact E1|]. split; [exact E1'|].
  apply (Wine_kernel_value x1 x2 e1 e2 e3 e1'); assumption.
Qed.

Lemma wine_kernel_first_chunk_only_witness :
  exists e e',
    Wine.encoding (slice 0 4 [1; 2; 3; 4; 5; 6; 7; 8; 9; 10; 11; 12])
      = Some e /\
    Wine.encoding (slice 0 4 [4; 3; 2; 1]) = Some e' /\
    Wine.kernel [1; 2; 3; 4; 5; 6; 7; 8; 9; 10; 11; 12] [4; 3; 2; 1]
      = Some (Re (inner e e' * inner e e')).
Proof.
  apply (wine_kernel_first_chunk_only
           [1; 2; 3; 4; 5; 6; 7; 8; 9; 10; 11; 12] [4; 3; 2; 1]);
    simpl; lia.
Defined.

(** X10.  Two pairs of Wine vectors that agree on the first four features
    of each argument get the same kernel value, whatever their features 5 to
    12 are; in particular the kernel is 1 whenever the two arguments agree
    on their first four features. *)
Theorem wine_kernel_ignores_later_features (x1 x2 y1 y2 : list R) :
  (12 <= length x1)%nat -> (12 <= length y1)%nat ->
  slice 0 4 x1 = slice 0 4 y1 -> slice 0 4 x2 = slice 0 4 y2 ->
  Wine.kernel x1 x2 = Wine.kernel y1 y2 /\
  (slice 0 4 x1 = slice 0 4 x2 -> Wine.kernel x1 x2 = Some 1).
Proof.
  intros Hx Hy H1 H2.
  destruct (Wine_slices_defined x1 Hx)
    as (e1 & e2 & e3 & E1 & E2 & E3 & He1 & _).
  destruct (Wine_slices_defined y1 Hy) as (f1 & f2 & f3 & F1 & F2 & F3 & _).
  assert (f1 = e1) by congruence. subst f1.
  split.
  - destruct (Wine.encoding (slice 0 4 x2)) as [e'|] eqn:E'.
    + rewrite (Wine_kernel_value x1 x2 e1 e2 e3 e' E1 E2 E3 E').
      rewrite H2 in E'.
      rewrite (Wine_kernel_value y1 y2 e1 f2 f3 e' F1 F2 F3 E').
      reflexivity.
    + unfold Wine.kernel. rewrite <- H2, E1, E2, E3, F1, F2, F3, E'.
      reflexivity.
  - intros Heq. assert (E1' := E1). rewrite Heq in E1'.
    rewrite (Wine_kernel_value x1 x2 e1 e2 e3 e1 E1 E2 E3 E1').
    rewrite (unit_qutrit_inner e1 He1). f_equal. simpl. ring.
Qed.

Lemma wine_kernel_ignores_later_features_witness :
  Wine.kernel [1; 2; 3; 4; 5; 6; 7; 8; 9; 10; 11; 12] [4; 3; 2; 1]
  = Wine.kernel [1; 2; 3; 4; 0; 0; 0; 0; 0; 0; 0; 0] [4; 3; 2; 1; 9] /\
  (slice 0 4 [1; 2; 3; 4; 5; 6; 7; 8; 9; 10; 11; 12] = slice 0 4 [4; 3; 2; 1]
   -> Wine.kernel [1; 2; 3; 4; 5; 6; 7; 8; 9; 10; 11; 12] [4; 3; 2; 1]
      = Some 1).
Proof.
  apply (wine_kernel_ignores_later_features
           [1; 2; 3; 4; 5; 6; 7; 8; 9; 10; 11; 12] [4; 3; 2; 1]
           [1; 2; 3; 4; 0; 0; 0; 0; 0; 0; 0; 0] [4; 3; 2; 1; 9]).
  - simpl. lia.
  - simpl. lia.
  - reflexivity.
  - reflexivity.
Defined.

(** ** The range of the kernels and the symmetry of the Gram matrix *)

Lemma overlap_sq_range (c : C) : Cnorm2 c <= 1 -> -1 <= Re (c * c) <= 1.
Proof. intros H. generalize (Re_sqr_bound c). lra. Qed.

Lemma overlap_product_norm (a b a' b' : array) :
  unit_qutrit a -> unit_qutrit b -> unit_qutrit a' -> unit_qutrit b' ->
  Cnorm2 (inner a a' * inner b b') <= 1.
Proof.
  intros Ha Hb Ha' Hb'. rewrite Cnorm2_mult.
  generalize (cauchy_schwarz_qutrit a a' Ha Ha')
             (cauchy_schwarz_qutrit b b' Hb Hb')
             (Cnorm2_nonneg (inner a a')) (Cnorm2_nonneg (inner b b')).
  generalize (Cnorm2 (inner a a')) (Cnorm2 (inner b b')).
  intros A B HA HB HA0 HB0. nra.
Qed.

Lemma Glass_kernel_lengths (x1 x2 : list R) (k : R) :
  Glass.kernel x1 x2 = Some k -> (8 <= length x1)%nat /\ (8 <= length x2)%nat.
Proof.
  intros Hk.
  destruct (le_lt_dec 8 (length x1)) as [H1|H1];
    [destruct (le_lt_dec 8 (length x2)) as [H2|H2]; [tauto|]|];
    rewrite Glass_kernel_short in Hk by tauto; discriminate.
Qed.

Lemma Iris_kernel_lengths (x1 x2 : list R) (k : R) :
  Iris.kernel x1 x2 = Some k -> (4 <= length x1)%nat /\ (4 <= length x2)%nat.
Proof.
  intros Hk.
  destruct (le_lt_dec 4 (length x1)) as [H1|H1];
    [destruct (le_lt_dec 4 (length x2)) as [H2|H2]; [tauto|]|];
    rewrite Iris_kernel_short in Hk by tauto; discriminate.
Qed.

Lemma Wine_kernel_lengths (x1 x2 : list R) (k : R) :
  Wine.kernel x1 x2 = Some k -> (12 <= length x1)%nat /\ (4 <= length x2)%nat.
Proof.
  intros Hk.
  destruct (le_lt_dec 12 (length x1)) as [H1|H1];
    [destruct (le_lt_dec 4 (length x2)) as [H2|H2]; [tauto|]|];
    rewrite Wine_kernel_short in Hk by tauto; discriminate.
Qed.

Lemma Glass_kernel_range (x1 x2 : list R) (k : R) :
  Glass.kernel x1 x2 = Some k -> -1 <= k <= 1.
Proof.
  intros Hk. destruct (Glass_kernel_lengths x1 x2 k Hk) as [Hl1 Hl2].
  destruct (Glass_chunks x1 Hl1) as (e1 & e2 & E1 & E2 & H1 & H2).
  destruct (Glass_chunks x2 Hl2) as (e1' & e2' & E1' & E2' & H1' & H2').
  rewrite (Glass_kernel_value x1 x2 e1 e2 e1' e2' E1 E2 E1' E2') in Hk.
  assert (Ek : k = Re ((inner e1 e1' * inner e2 e2')
                       * (inner e1 e1' * inner e2 e2'))) by congruence.
  rewrite Ek. apply overlap_sq_range, overlap_product_norm; assumption.
Qed.

Lemma Iris_kernel_range (x1 x2 : list R) (k : R) :
  Iris.kernel x1 x2 = Some k -> -1 <= k <= 1.
Proof.
  intros Hk. destruct (Iris_kernel_lengths x1 x2 k Hk) as [Hl1 Hl2].
  destruct (Iris_encoding_unit x1 Hl1) as (e & E & He).
  destruct (Iris_encoding_unit x2 Hl2) as (e' & E' & He').
  rewrite (Iris_kernel_value x1 x2 e e' E E') in Hk.
  assert (Ek : k = Re ((inner e e' * inner e e')
                       * (inner e e' * inner e e'))) by congruence.
  rewrite Ek. apply overlap_sq_range, overlap_product_norm; assumption.
Qed.

Lemma Wine_kernel_range (x1 x2 : list R) (k : R) :
  Wine.kernel x1 x2 = Some k -> -1 <= k <= 1.
Proof.
  intros Hk. destruct (Wine_kernel_lengths x1 x2 k Hk) as [Hl1 Hl2].
  destruct (Wine_slices_defined x1 Hl1)
    as (e1 & e2 & e3 & E1 & E2 & E3 & H1 & _).
  destruct (Wine_encoding_unit (slice 0 4 x2)) as (e1' & E1' & H1').
  { rewrite slice_length by lia. lia. }
  rewrite (Wine_kernel_value x1 x2 e1 e2 e3 e1' E1 E2 E3 E1') in Hk.
  assert (Ek : k = Re (inner e1 e1' * inner e1 e1')) by congruence.
  rewrite Ek. apply overlap_sq_range, cauchy_schwarz_qutrit; assumption.
Qed.

(** X11.  Whenever a kernel returns, its value lies in [-1, 1], in each of
    the four notebooks (it is the real part of the square of a complex
    number of modulus at most 1). *)
Theorem kernel_range (x1 x2 : list R) (k : R) :
  (Seeds.kernel x1 x2 = Some k -> -1 <= k <= 1) /\
  (Glass.kernel x1 x2 = Some k -> -1 <= k <= 1) /\
  (Iris.kernel x1 x2 = Some k -> -1 <= k <= 1) /\
  (Wine.kernel x1 x2 = Some k -> -1 <= k <= 1).
Proof.
  split; [apply Seeds_kernel_range|].
  split; [apply Glass_kernel_range|].
  split; [apply Iris_kernel_range|apply Wine_kernel_range].
Qed.

Lemma kernel_range_witness : -1 <= cos 3 <= 1.
Proof.
  apply (proj1 (kernel_range (zero_vector 8) [0; 0; 3 / 2; 0; 0; 0; 0; 0]
                             (cos 3))).
  rewrite Seeds_kernel_phase. do 2 f_equal. field.
Defined.

(** A kernel matrix over one list of vectors is symmetric as soon as the
    kernel is symmetric on that list. *)
Lemma gram_symmetric (kernel : list R -> list R -> option R)
    (A : list (list R)) (K : list (list R)) :
  (forall a b, In a A -> In b A -> kernel a b = kernel b a) ->
  kernel_matrix_of kernel A A = Some K ->
  forall i j, entry K i j = entry K j i.
Proof.
  intros Hsym HK.
  assert (Hlen : length K = length A)
    by (apply (mapM_length _ A K HK)).
  assert (Hrow : forall i row, nth_error K i = Some row ->
                               length row = length A).
  { intros i row Hi.
    assert (Hlt : (i < length A)%nat)
      by (rewrite <- Hlen; apply nth_error_Some; congruence).
    destruct (nth_error A i) as [a|] eqn:Ea;
      [|apply nth_error_None in Ea; lia].
    destruct (mapM_nth_error _ A K i a HK Ea) as (row' & Hrow' & Hm).
    assert (row' = row) by congruence. subst row'.
    apply (mapM_length _ A row Hm). }
  assert (Hout : forall i j, (length A <= i)%nat \/ (length A <= j)%nat ->
                             entry K i j = None).
  { intros i j Hij. unfold entry.
    destruct (nth_error K i) as [row|] eqn:Ei; [|reflexivity].
    cbn [bind]. apply nth_error_None. rewrite (Hrow i row Ei).
    destruct Hij as [Hi|Hj]; [|exact Hj].
    assert (i < length K)%nat by (apply nth_error_Some; congruence). lia. }
  assert (Hin : forall i j a b, nth_error A i = Some a ->
                  nth_error A j = Some b -> entry K i j = kernel a b).
  { intros i j a b Ea Eb.
    destruct (mapM_nth_error _ A K i a HK Ea) as (row & Hr & Hm).
    destruct (mapM_nth_error _ A row j b Hm Eb) as (k & Hk & Hkab).
    unfold entry. rewrite Hr. cbn [bind]. congruence. }
  intros i j.
  destruct (nth_error A i) as [a|] eqn:Ea.
  - destruct (nth_error A j) as [b|] eqn:Eb.
    + rewrite (Hin i j a b Ea Eb), (Hin j i b a Eb Ea).
      apply Hsym; eapply nth_error_In; eassumption.
    + apply nth_error_None in Eb. rewrite !Hout by tauto. reflexivity.
  - apply nth_error_None in Ea. rewrite !Hout by tauto. reflexivity.
Qed.

(** X12.  Whenever [kernel_matrix(A, A)] returns, the matrix is symmetric:
    [K[i][j] = K[j][i]] for all [i] and [j], in each of the four notebooks
    (the Gram matrix handed to the support-vector machine). *)
Theorem gram_matrix_symmetric (A : list (list R)) (K : list (list R)) :
  (Seeds.kernel_matrix A A = Some K -> forall i j, entry K i j = entry K j i) /\
  (Glass.kernel_matrix A A = Some K -> forall i j, entry K i j = entry K j i) /\
  (Iris.kernel_matrix A A = Some K -> forall i j, entry K i j = entry K j i) /\
  (Wine.kernel_matrix A A = Some K -> forall i j, entry K i j = entry K j i).
Proof.
  split; [|split; [|split]]; intros HK.
  - apply (gram_symmetric Seeds.kernel A K); [|exact HK].
    intros a b _ _. apply Seeds_kernel_sym.
  - apply (gram_symmetric Glass.kernel A K); [|exact HK].
    intros a b _ _. apply Glass_kernel_sym.
  - apply (gram_symmetric Iris.kernel A K); [|exact HK].
    intros a b _ _. apply Iris_kernel_sym.
  - apply (gram_symmetric Wine.kernel A K); [|exact HK].
    assert (Hlen : forall a, In a A -> (12 <= length a)%nat).
    { intros a Ha. apply In_nth_error in Ha. destruct Ha as [i Ea].
      destruct (mapM_nth_error _ A K i a HK Ea) as (row & Hr & Hm).
      destruct (mapM_nth_error _ A row i a Hm Ea) as (k & Hk & Hka).
      apply (Wine_kernel_lengths a a k Hka). }
    intros a b Ha Hb. apply Wine_kernel_sym; apply Hlen; assumption.
Qed.

Lemma gram_matrix_symmetric_witness :
  entry [[1; cos 3]; [cos 3; 1]] 0 1 = entry [[1; cos 3]; [cos 3; 1]] 1 0.
Proof.
  apply (proj1 (gram_matrix_symmetric
                  [zero_vector 8; [0; 0; 3 / 2; 0; 0; 0; 0; 0]]
                  [[1; cos 3]; [cos 3; 1]])).
  assert (E : Seeds.kernel (zero_vector 8) [0; 0; 3 / 2; 0; 0; 0; 0; 0]
              = Some (cos 3)).
  { rewrite Seeds_kernel_phase. do 2 f_equal. field. }
  unfold Seeds.kernel_matrix, kernel_matrix_of. cbn [mapM].
  rewrite (Seeds_kernel_sym [0; 0; 3 / 2; 0; 0; 0; 0; 0] (zero_vector 8)), E.
  rewrite (Seeds_kernel_self (zero_vector 8) eq_refl).
  rewrite (Seeds_kernel_self [0; 0; 3 / 2; 0; 0; 0; 0; 0] eq_refl).
  reflexivity.
Defined.

(** ** The gate applied by [encoding] *)

Lemma adjoint_dot_unitary (U : array) (n : nat) :
  (0 < n)%nat -> rows U = n -> cols U = n -> unitary_fun n (get U) ->
  dot (transpose (arr_conj U)) U = eye n.
Proof.
  intros Hn Hr Hc HU. unfold dot, eye.
  assert (Hrt : rows (transpose (arr_conj U)) = n).
  { unfold transpose. rewrite length_mat_build, cols_arr_conj. exact Hc. }
  assert (Hct : cols (transpose (arr_conj U)) = n).
  { unfold transpose. rewrite cols_mat_build, rows_arr_conj;
      rewrite ?cols_arr_conj; lia. }
  rewrite Hrt, Hct, Hc.
  apply mat_build_ext. intros i j Hi Hj.
  rewrite <- (HU i j Hi Hj). apply Csum_ext. intros k Hk.
  unfold transpose. rewrite get_mat_build
    by (rewrite ?cols_arr_conj, ?rows_arr_conj; lia).
  rewrite get_arr_conj by lia. reflexivity.
Qed.

Lemma gen_sum_low_anti (a b c d : R) :
  transpose (arr_conj (gen_sum_low a b c d))
  = scal (RtoC (-1)) (gen_sum_low a b c d)
  /\ trace (gen_sum_low a b c d) = C0.
Proof.
  split.
  - unfold gen_sum_low. cbn; arr_eq; lca.
  - unfold trace, get, gen_sum_low. cbn. lca.
Qed.

Lemma gen_sum_high_anti (a b c d : R) :
  transpose (arr_conj (gen_sum_high a b c d))
  = scal (RtoC (-1)) (gen_sum_high a b c d)
  /\ trace (gen_sum_high a b c d) = C0.
Proof.
  split.
  - unfold gen_sum_high. cbn; arr_eq; lca.
  - unfold trace, get, gen_sum_high. cbn.
    apply C_eq; simpl; try ring. field. apply sqrt3_neq_0.
Qed.

Lemma expm_skew3_unitary (S : array) :
  rows S = 3%nat -> skew_hermitian_fun 3 (get S) ->
  dot (transpose (arr_conj (expm S))) (expm S) = eye 3.
Proof.
  intros Hr Hskew. apply adjoint_dot_unitary.
  - lia.
  - rewrite rows_expm. exact Hr.
  - rewrite cols_expm; lia.
  - rewrite <- Hr. apply expm_unitary. rewrite Hr. exact Hskew.
Qed.

(** X13.  For every real input on which the loop of [encoding] returns, with
    the generator offset of the notebooks (0, or 4 in the Wine notebook),
    the accumulated matrix [sum] is anti-Hermitian and traceless, and the
    gate [expm(sum)] applied to the base vector is unitary:
    [expm(sum).conj().T @ expm(sum)] is the 3 x 3 identity. *)
Theorem encoding_gate_unitary (offset : nat) (v : list R) (S : array) :
  offset = 0%nat \/ offset = 4%nat ->
  encoding_sum offset v = Some S ->
  transpose (arr_conj S) = scal (RtoC (-1)) S /\
  trace S = C0 /\
  dot (transpose (arr_conj (expm S))) (expm S) = eye 3.
Proof.
  intros Hoff HS.
  destruct (le_lt_dec 4 (length v)) as [Hlen|Hlen];
    [|rewrite encoding_sum_short in HS by exact Hlen; discriminate].
  destruct v as [|a [|b [|c [|d rest]]]]; simpl in Hlen; try lia.
  destruct Hoff as [-> | ->].
  - rewrite encoding_sum_low in HS.
    assert (ES : S = gen_sum_low a b c d) by congruence. subst S.
    destruct (gen_sum_low_anti a b c d) as [Ha Ht].
    repeat split; trivial.
    apply expm_skew3_unitary; [reflexivity|apply gen_sum_low_skew].
  - rewrite encoding_sum_high in HS.
    assert (ES : S = gen_sum_high a b c d) by congruence. subst S.
    destruct (gen_sum_high_anti a b c d) as [Ha Ht].
    repeat split; trivial.
    apply expm_skew3_unitary; [reflexivity|apply gen_sum_high_skew].
Qed.

Lemma encoding_gate_unitary_witness :
  dot (transpose (arr_conj (expm (gen_sum_low 1 2 3 4))))
      (expm (gen_sum_low 1 2 3 4)) = eye 3.
Proof.
  apply (encoding_gate_unitary 0 [1; 2; 3; 4] (gen_sum_low 1 2 3 4)).
  - left. reflexivity.
  - apply encoding_sum_low.
Defined.

(** ** The kernels on the features of a diagonal generator

    The third feature of a chunk multiplies the diagonal generator [gm3]; on
    inputs whose other features vanish the exponential is a diagonal matrix
    of phases and the kernels have a closed form. *)

Lemma dot_diag3_col (z0 z1 z2 w0 w1 w2 : C) :
  dot (diag_array [z0; z1; z2]) [[w0]; [w1]; [w2]]
  = [[(z0 * w0)%C]; [(z1 * w1)%C]; [(z2 * w2)%C]].
Proof. cbn; arr_eq; destruct z0, z1, z2, w0, w1, w2; lca. Qed.

Lemma inner_col3 (a0 a1 a2 b0 b1 b2 : C) :
  inner [[a0]; [a1]; [a2]] [[b0]; [b1]; [b2]]
  = (Cconj a0 * b0 + Cconj a1 * b1 + Cconj a2 * b2)%C.
Proof. unfold inner, col, get. cbn. destruct a0, a1, a2, b0, b1, b2; lca. Qed.

Lemma inner_phase_phase (s t : R) :
  inner [[Cexp (mkC 0 s)]; [C0]; [C0]] [[Cexp (mkC 0 t)]; [C0]; [C0]]
  = mkC (cos (t - s)) (sin (t - s)).
Proof.
  rewrite inner_col3, cos_minus, sin_minus. unfold Cexp. simpl.
  rewrite exp_0. apply C_eq; simpl; ring.
Qed.

Lemma phase_mult (x y : R) :
  (mkC (cos x) (sin x) * mkC (cos y) (sin y))%C
  = mkC (cos (x + y)) (sin (x + y)).
Proof. rewrite cos_plus, sin_plus. apply C_eq; simpl; ring. Qed.

Lemma Seeds_kernel_gm3 (s1 s2 t1 t2 : R) :
  Seeds.kernel [0; 0; s1; 0; 0; 0; s2; 0] [0; 0; t1; 0; 0; 0; t2; 0]
  = Some (cos (2 * ((t1 - s1) + (t2 - s2)))).
Proof.
  rewrite (Seeds_kernel_value _ _
             [[Cexp (mkC 0 s1)]; [C0]; [C0]] [[Cexp (mkC 0 s2)]; [C0]; [C0]]
             [[Cexp (mkC 0 t1)]; [C0]; [C0]] [[Cexp (mkC 0 t2)]; [C0]; [C0]]).
  - rewrite !inner_phase_phase, phase_mult, Re_sqr_phase. reflexivity.
  - apply (Seeds_encoding_gm3 s1 []).
  - apply (Seeds_encoding_gm3 s2 []).
  - apply (Seeds_encoding_gm3 t1 []).
  - apply (Seeds_encoding_gm3 t2 []).
Qed.

Lemma Glass_encoding_gm3 (t : R) (rest : list R) :
  Glass.encoding (0 :: 0 :: t :: 0 :: rest)
  = Some [[(Cexp (mkC 0 t) * RtoC (1 / sqrt 3))%C];
          [(Cexp (mkC 0 (- t)) * RtoC (1 / sqrt 3))%C];
          [(Cexp (mkC 0 0) * RtoC (1 / sqrt 3))%C]].
Proof.
  unfold Glass.encoding. rewrite encoding_sum_low. cbn [bind].
  rewrite gen_sum_low_gm3, expm_diag, Hq0_eq. cbn [map].
  rewrite dot_diag3_col. reflexivity.
Qed.

Lemma inner_hadamard_phase (s t : R) :
  inner [[(Cexp (mkC 0 s) * RtoC (1 / sqrt 3))%C];
         [(Cexp (mkC 0 (- s)) * RtoC (1 / sqrt 3))%C];
         [(Cexp (mkC 0 0) * RtoC (1 / sqrt 3))%C]]
        [[(Cexp (mkC 0 t) * RtoC (1 / sqrt 3))%C];
         [(Cexp (mkC 0 (- t)) * RtoC (1 / sqrt 3))%C];
         [(Cexp (mkC 0 0) * RtoC (1 / sqrt 3))%C]]
  = RtoC ((2 * cos (t - s) + 1) / 3).
Proof.
  rewrite inner_col3, cos_minus. unfold Cexp. simpl.
  rewrite exp_0, !cos_neg, !sin_neg, cos_0, sin_0.
  assert (Hr : 1 / sqrt 3 * (1 / sqrt 3) = 1 / 3).
  { replace (1 / sqrt 3 * (1 / sqrt 3)) with (1 / (sqrt 3 * sqrt 3))
      by (field; apply sqrt3_neq_0).
    rewrite sqrt3_sqr. reflexivity. }
  generalize (sin2_cos2 s) (sin2_cos2 t). unfold Rsqr.
  revert Hr. generalize (1 / sqrt 3) (cos s) (sin s) (cos t) (sin t).
  intros r cs ss ct st Hr Hs Ht.
  apply C_eq; simpl.
  - replace ((2 * (ct * cs + st * ss) + 1) / 3)
      with ((2 * (ct * cs + st * ss) + 1) * (r * r)) by (rewrite Hr; field).
    ring.
  - ring.
Qed.

Lemma Glass_kernel_gm3 (s1 s2 t1 t2 : R) :
  Glass.kernel [0; 0; s1; 0; 0; 0; s2; 0] [0; 0; t1; 0; 0; 0; t2; 0]
  = Some (((2 * cos (t1 - s1) + 1) / 3 * ((2 * cos (t2 - s2) + 1) / 3)) ^ 2).
Proof.
  rewrite (Glass_kernel_value
             [0; 0; s1; 0; 0; 0; s2; 0] [0; 0; t1; 0; 0; 0; t2; 0] _ _ _ _
             (Glass_encoding_gm3 s1 []) (Glass_encoding_gm3 s2 [])
             (Glass_encoding_gm3 t1 []) (Glass_encoding_gm3 t2 [])).
  rewrite !inner_hadamard_phase. f_equal. simpl. ring.
Qed.

(** X14.  On inputs whose only non-zero features are the third of each
    chunk (the coefficients of the diagonal generator gm3), the Seeds kernel
    is cos(2((t1 - s1) + (t2 - s2))) and the Glass kernel is
    (((2 cos(t1 - s1) + 1) / 3) ((2 cos(t2 - s2) + 1) / 3))^2.  Both are
    periodic in each of these features, with period pi for Seeds and 2 pi
    for Glass, which is the periodicity of the embedding that the notebooks
    remark on. *)
Theorem kernel_periodic_in_diagonal_features (s1 s2 t1 t2 : R) :
  let x1 := [0; 0; s1; 0; 0; 0; s2; 0] in
  let x2 := [0; 0; t1; 0; 0; 0; t2; 0] in
  Seeds.kernel x1 x2 = Some (cos (2 * ((t1 - s1) + (t2 - s2)))) /\
  Glass.kernel x1 x2
  = Some (((2 * cos (t1 - s1) + 1) / 3 * ((2 * cos (t2 - s2) + 1) / 3)) ^ 2) /\
  Seeds.kernel x1 [0; 0; t1 + PI; 0; 0; 0; t2; 0] = Seeds.kernel x1 x2 /\
  Seeds.kernel x1 [0; 0; t1; 0; 0; 0; t2 + PI; 0] = Seeds.kernel x1 x2 /\
  Glass.kernel x1 [0; 0; t1 + 2 * PI; 0; 0; 0; t2; 0] = Glass.kernel x1 x2 /\
  Glass.kernel x1 [0; 0; t1; 0; 0; 0; t2 + 2 * PI; 0] = Glass.kernel x1 x2.
Proof.
  cbv zeta. rewrite !Seeds_kernel_gm3, !Glass_kernel_gm3.
  repeat split.
  - rewrite <- (cos_period (2 * (t1 - s1 + (t2 - s2))) 1).
    replace (2 * (t1 - s1 + (t2 - s2)) + 2 * INR 1 * PI)
      with (2 * (t1 + PI - s1 + (t2 - s2))) by (simpl; ring).
    reflexivity.
  - rewrite <- (cos_period (2 * (t1 - s1 + (t2 - s2))) 1).
    replace (2 * (t1 - s1 + (t2 - s2)) + 2 * INR 1 * PI)
      with (2 * (t1 - s1 + (t2 + PI - s2))) by (simpl; ring).
    reflexivity.
  - rewrite <- (cos_period (t1 - s1) 1).
    replace (t1 - s1 + 2 * INR 1 * PI) with (t1 + 2 * PI - s1)
      by (simpl; ring).
    reflexivity.
  - rewrite <- (cos_period (t2 - s2) 1).
    replace (t2 - s2 + 2 * INR 1 * PI) with (t2 + 2 * PI - s2)
      by (simpl; ring).
    reflexivity.
Qed.

(** ** Normalisation of the generators *)

Ltac gm_trace :=
  unfold trace, get; cbn; apply C_eq; simpl;
  try ring; field_simplify; try apply sqrt3_neq_0;
  rewrite ?pow2_sqrt by lra; try field; try apply sqrt3_neq_0.

(** X15.  The eight generators are orthogonal for the trace form and share
    the Gell-Mann normalisation: [np.trace(generators[a] @ generators[b])]
    is 2 when [a = b] and 0 otherwise. *)
Theorem generators_trace_orthogonal (a b : nat) (ga gb : array) :
  nth_error generators a = Some ga ->
  nth_error generators b = Some gb ->
  trace (dot ga gb) = if (a =? b)%nat then RtoC 2 else C0.
Proof.
  unfold generators. intros Ha Hb.
  destruct a as [|[|[|[|[|[|[|[|a]]]]]]]];
    try (destruct a; discriminate Ha);
    cbn [nth_error] in Ha; injection Ha as <-;
  (destruct b as [|[|[|[|[|[|[|[|b]]]]]]]];
    try (destruct b; discriminate Hb);
    cbn [nth_error] in Hb; injection Hb as <-);
  cbn [Nat.eqb];
  rewrite ?gm1_eq, ?gm2_eq, ?gm3_eq, ?gm4_eq, ?gm5_eq, ?gm6_eq, ?gm7_eq,
    ?gm8_eq;
  gm_trace.
Qed.

Lemma generators_trace_orthogonal_witness :
  trace (dot gm3 gm8) = C0 /\ trace (dot gm8 gm8) = RtoC 2.
Proof.
  split.
  - apply (generators_trace_orthogonal 2 7 gm3 gm8); reflexivity.
  - apply (generators_trace_orthogonal 7 7 gm8 gm8); reflexivity.
Defined.

(** ** The self-overlap printed by the Iris notebook *)

Lemma self_overlap_array (psi : array) :
  unit_qutrit psi ->
  real (square (dot (transpose (arr_conj psi)) psi)) = [[1]].
Proof.
  intros (z0 & z1 & z2 & -> & Hn). unfold Cnorm2 in Hn.
  destruct z0 as [a0 b0], z1 as [a1 b1], z2 as [a2 b2]. simpl in Hn.
  cbn. do 2 f_equal. nra.
Qed.

(** X16.  The check printed in the Iris notebook holds for every real input:
    for a vector of at least four features,
    [np.real(np.dot(encoding(vector).conj().T, encoding(vector))**2)] is the
    1 x 1 array [[1.]]. *)
Theorem iris_self_overlap_is_one (v : list R) :
  (4 <= length v)%nat ->
  exists psi,
    Iris.encoding v = Some psi /\
    real (square (dot (transpose (arr_conj psi)) psi)) = [[1]].
Proof.
  intros Hlen. destruct (Iris_encoding_unit v Hlen) as (psi & E & Hpsi).
  exists psi. split; [exact E|]. apply self_overlap_array, Hpsi.
Qed.

Lemma iris_self_overlap_is_one_witness :
  exists psi,
    Iris.encoding [634 / 100; 2211 / 100; 2; 3] = Some psi /\
    real (square (dot (transpose (arr_conj psi)) psi)) = [[1]].
Proof.
  apply (iris_self_overlap_is_one [634 / 100; 2211 / 100; 2; 3]).
  simpl. lia.
Defined.
